(** * ForecastingVolume: lag features over a per-company window, and the
      train/test split by date

    A shallow embedding of the data preparation cells of
    [nyc-workshop-2018/h2o_sw/sparkling-water-hands-on/ForecastingVolume.ipynb]:

    - the schema of [stock_df] (cell "Import data");
    - the window [w = Window().partitionBy(col("Name")).orderBy(col("Date"))];
    - the five [select("*", lag(..).over(w).alias(..)).na.drop()] passes
      that produce [ext_stock_df];
    - [predictors], [is_test], [train] and [test].

    The engine is free to order rows that carry the same [Date]; this
    freedom is kept explicit: every definition takes the engine's sort as
    a parameter ([Engine]), and only its contract (a permutation, sorted
    by [Date], nulls first) is available to the proofs. *)

From Stdlib Require Import ZArith Floats.SpecFloat.
From stdpp Require Import base decidable option list sorting strings gmap.

Open Scope string_scope.
Open Scope list_scope.
Open Scope Z_scope.

(** ** Cells and rows *)

(** [DoubleType()]: an IEEE 754 binary64 value. *)
Definition double := spec_float.

#[global] Instance double_eq_dec : EqDecision double.
Proof. solve_decision. Defined.

(** The double nearest to an integer literal such as [100]. *)
Definition dbl (z : Z) : double := binary_normalize 53 1024 z 0 false.

(** A row of [stock_df], one field per [StructField] of [schema]; every
    field is nullable ([True] in the schema), hence the options.  [Date] is
    a [TimestampType()], the number of microseconds since the epoch. *)
Record StockRow := {
  Date : option Z;
  Open : option double;
  High : option double;
  Low : option double;
  Close : option double;
  Volume : option double;
  Name : option string }.

#[global] Instance StockRow_eq_dec : EqDecision StockRow.
Proof. solve_decision. Defined.

(** The column names of [schema], in order. *)
Definition schema : list string :=
  ["Date"; "Open"; "High"; "Low"; "Close"; "Volume"; "Name"].

(** A row of [ext_stock_df]: [select("*", ...)] keeps every column of the
    row and appends the lag columns, which are all doubles. *)
Record ExtRow := { base : StockRow; lags : list (option double) }.

#[global] Instance ExtRow_eq_dec : EqDecision ExtRow.
Proof. solve_decision. Defined.

(** A data frame: the names of the appended lag columns (the first seven
    columns are those of [schema]) and the rows. *)
Record DataFrame := { lag_columns : list string; rows : list ExtRow }.

Definition columns (df : DataFrame) : list string := schema ++ lag_columns df.

(** A row without lag columns. *)
Definition raw (r : StockRow) : ExtRow := {| base := r; lags := [] |}.

(** [spark.read.csv(.., schema = schema)]: the rows as parsed. *)
Definition stock_df (csv : list StockRow) : DataFrame :=
  {| lag_columns := []; rows := raw <$> csv |}.

(** The value of the lag column called [c] in a row of [df]. *)
Definition lag_value (df : DataFrame) (c : string) (r : ExtRow) : option (option double) :=
  '(i, _) ← list_find (λ n, n = c) (lag_columns df); lags r !! i.

(** ** [na.drop()] *)

(** [na.drop()] returns "a new DataFrame omitting rows with null values".
    The values it counts as null, called missing below, are the SQL nulls
    of any column and the NaNs of the double columns. *)
Definition missing (c : option double) : bool :=
  match c with
  | None => true
  | Some S754_nan => true
  | Some _ => false
  end.

Definition present (c : option double) : bool := negb (missing c).

(** No missing value among the seven schema columns. *)
Definition complete_stock (r : StockRow) : bool :=
  bool_decide (is_Some (Date r)) && present (Open r) && present (High r)
  && present (Low r) && present (Close r) && present (Volume r)
  && bool_decide (is_Some (Name r)).

(** No missing value in any column of the row. *)
Definition complete (r : ExtRow) : bool :=
  complete_stock (base r) && forallb present (lags r).

(** [df.na.drop()]: keep the rows without a missing value. *)
Definition na_drop (df : DataFrame) : DataFrame :=
  {| lag_columns := lag_columns df; rows := filter (λ r, complete r = true) (rows df) |}.

(** ** The window [w] *)

(** [partitionBy(col("Name"))]: the rows of one company. *)
Definition partition_of (key : option string) (l : list ExtRow) : list ExtRow :=
  filter (λ r, Name (base r) = key) l.

(** The partition keys of a frame. *)
Definition keys (l : list ExtRow) : list (option string) :=
  remove_dups ((λ r, Name (base r)) <$> l).

(** [orderBy(col("Date"))]: ascending, nulls first. *)
Definition date_le (r1 r2 : ExtRow) : Prop :=
  match Date (base r1), Date (base r2) with
  | None, _ => True
  | Some _, None => False
  | Some a, Some b => a ≤ b
  end.

#[global] Instance date_le_dec : RelDecision date_le.
Proof. intros r1 r2. unfold date_le. destruct (Date (base r1)), (Date (base r2)); apply _. Defined.

#[global] Instance date_le_trans : Transitive date_le.
Proof.
  intros x y z. unfold date_le.
  destruct (Date (base x)), (Date (base y)), (Date (base z)); try done. lia.
Qed.

#[global] Instance date_le_total : Total date_le.
Proof.
  intros x y. unfold date_le.
  destruct (Date (base x)), (Date (base y)); auto. lia.
Qed.

(** The sort of the engine that evaluates the window.  Rows with the same
    [Date] may come out in any order. *)
Record Engine := {
  order_by_date : list ExtRow → list ExtRow;
  order_perm : ∀ l, order_by_date l ≡ₚ l;
  order_sorted : ∀ l, Sorted date_le (order_by_date l) }.

(** Two engines: a merge sort, and a descending merge sort read backwards
    (so that ties come out in another order). *)
Program Definition merge_engine : Engine :=
  {| order_by_date := merge_sort date_le |}.
Next Obligation. intros l. apply merge_sort_Permutation. Qed.
Next Obligation. intros l. apply (Sorted_merge_sort date_le). Qed.

#[global] Instance date_ge_total : Total (flip date_le).
Proof. intros x y. unfold flip. destruct (total date_le y x); auto. Qed.

Program Definition reverse_engine : Engine :=
  {| order_by_date := λ l, reverse (merge_sort (flip date_le) l) |}.
Next Obligation. intros l. simpl. by rewrite reverse_Permutation, merge_sort_Permutation. Qed.
Next Obligation.
  intros l. apply (Sorted_reverse (flip date_le)), (Sorted_merge_sort (flip date_le)).
Qed.

(** ** [lag(c, count = k).over(w).alias(a)] *)

(** The double columns of [schema] that a lag can read, and their values
    in a row. *)
Inductive Measure := OpenCol | HighCol | LowCol | CloseCol | VolumeCol.

Definition col (m : Measure) : StockRow → option double :=
  match m with
  | OpenCol => Open
  | HighCol => High
  | LowCol => Low
  | CloseCol => Close
  | VolumeCol => Volume
  end.

Record Lag := { source : Measure; count : nat; alias : string }.

(** The lag column over one ordered partition: the source column moved
    down by [count] rows, nulls entering at the top. *)
Definition lag_over (g : Lag) (P : list ExtRow) : list (option double) :=
  take (length P) (replicate (count g) None ++ ((λ r, col (source g) (base r)) <$> P)).

(** Append one column to the rows of a partition. *)
Definition with_column (W : list ExtRow) (col : list (option double)) : list ExtRow :=
  zip_with (λ r c, {| base := base r; lags := lags r ++ [c] |}) W col.

(** [select("*", g1.over(w), g2.over(w), ..)] on one ordered partition. *)
Definition windowed (gs : list Lag) (P : list ExtRow) : list ExtRow :=
  foldl (λ W g, with_column W (lag_over g P)) P gs.

(** [df.select("*", g1.over(w).alias(a1), ..)]: every partition is ordered
    by the engine and extended with the lag columns. *)
Definition select_lags (e : Engine) (gs : list Lag) (df : DataFrame) : DataFrame :=
  {| lag_columns := lag_columns df ++ (alias <$> gs);
     rows := flat_map (λ key, windowed gs (order_by_date e (partition_of key (rows df))))
                      (keys (rows df)) |}.

(** One pass of the notebook: [df.select("*", ..).na.drop()]. *)
Definition lag_pass (e : Engine) (gs : list Lag) (df : DataFrame) : DataFrame :=
  na_drop (select_lags e gs df).

(** ** The notebook's passes *)

Definition volume_lags : list Lag :=
  [ {| source := VolumeCol; count := 1; alias := "Volume_lag1" |};
    {| source := VolumeCol; count := 2; alias := "Volume_lag2" |};
    {| source := VolumeCol; count := 3; alias := "Volume_lag3" |} ].

Definition close_lag : list Lag := [ {| source := CloseCol; count := 1; alias := "Close_lag1" |} ].
Definition low_lag : list Lag := [ {| source := LowCol; count := 1; alias := "Low_lag1" |} ].
Definition high_lag : list Lag := [ {| source := HighCol; count := 1; alias := "High_lag1" |} ].
Definition open_lag : list Lag := [ {| source := OpenCol; count := 1; alias := "Open_lag1" |} ].

(** [ext_stock_df] as first bound (cell "Add Volume from the Previous
    Day, ..."). *)
Definition ext_stock_df_volume (e : Engine) (csv : list StockRow) : DataFrame :=
  lag_pass e volume_lags (stock_df csv).

(** [ext_stock_df] after each rebinding of the next cell; the last one is
    the frame handed to H2O. *)
Definition ext_stock_df_close e csv := lag_pass e close_lag (ext_stock_df_volume e csv).
Definition ext_stock_df_low e csv := lag_pass e low_lag (ext_stock_df_close e csv).
Definition ext_stock_df_high e csv := lag_pass e high_lag (ext_stock_df_low e csv).
Definition ext_stock_df e csv := lag_pass e open_lag (ext_stock_df_high e csv).

(** ** Partitions, positions and offsets *)

(** The rows of one company in the parsed file. *)
Definition company (key : option string) (csv : list StockRow) : list StockRow :=
  filter (λ r, Name r = key) csv.

(** One pass on the rows of one company. *)
Definition partition_pass (e : Engine) (gs : list Lag) (P : list ExtRow) : list ExtRow :=
  filter (λ r, complete r = true) (windowed gs (order_by_date e P)).

(** The largest offset of a lag specification. *)
Definition max_offset (gs : list Lag) : nat := max_list_with count gs.

(** What the specification asks of a lag column: at position [i] of the
    ordered partition [P], the source value of position [i - count], and a
    null when there is no such position. *)
Definition lag_at (g : Lag) (P : list ExtRow) (i : nat) : option double :=
  if decide (count g ≤ i)%nat
  then p ← P !! (i - count g)%nat; col (source g) (base p)
  else None.

(** The row of [select("*", ..)] built from the row [r] found at position
    [i] of [P]. *)
Definition extend (gs : list Lag) (P : list ExtRow) (i : nat) (r : ExtRow) : ExtRow :=
  {| base := base r; lags := lags r ++ ((λ g, lag_at g P i) <$> gs) |}.

(** ** The H2O frame, the predictors and the split by date *)

(** [hc.as_h2o_frame(ext_stock_df, ..)]: same column names, same rows. *)
Record H2OFrame := { col_names : list string; frame_rows : list ExtRow }.

Definition as_h2o_frame (df : DataFrame) : H2OFrame :=
  {| col_names := columns df; frame_rows := rows df |}.

Definition ext_stock_hf (e : Engine) (csv : list StockRow) : H2OFrame :=
  as_h2o_frame (ext_stock_df e csv).

(** [predictors = list(set(ext_stock_hf.col_names)
                       - set(["Volume", "Open", "Close", "High", "Low"]))] *)
Definition predictors (hf : H2OFrame) : list string :=
  elements ((list_to_set (col_names hf) : gset string)
            ∖ list_to_set ["Volume"; "Open"; "Close"; "High"; "Low"]).

Definition response : string := "Volume".

(** The calendar date (year, month, day; UTC) of a day number counted
    from 1970-01-01. *)
Definition civil_from_days (days : Z) : Z * Z * Z :=
  let z := days + 719468 in
  let era := z / 146097 in
  let doe := z - era * 146097 in
  let yoe := (doe - doe / 1460 + doe / 36524 - doe / 146096) / 365 in
  let doy := doe - (365 * yoe + yoe / 4 - yoe / 100) in
  let mp := (5 * doy + 2) / 153 in
  let d := doy - (153 * mp + 2) / 5 + 1 in
  let m := if mp <? 10 then mp + 3 else mp - 9 in
  (yoe + era * 400 + (if m <=? 2 then 1 else 0), m, d).

Definition micros_per_day : Z := 86400000000.

(** [.year()], [.month()], [.day()] of a timestamp. *)
Definition year (t : Z) : Z := (civil_from_days (t / micros_per_day)).1.1.
Definition month (t : Z) : Z := (civil_from_days (t / micros_per_day)).1.2.
Definition day (t : Z) : Z := (civil_from_days (t / micros_per_day)).2.

(** A boolean column computed from a frame has, for each row, a 0, a 1 or
    an NA.  [==] against a number is NA on an NA; [&] is NA unless one side
    is 0 or both are 1. *)
Definition h2o_eq (a : option Z) (n : Z) : option bool := (λ v, bool_decide (v = n)) <$> a.

Definition h2o_and (a b : option bool) : option bool :=
  match a, b with
  | Some false, _ | _, Some false => Some false
  | Some true, Some true => Some true
  | _, _ => None
  end.

Definition h2o_of_bool (b : option bool) : option Z := (λ v : bool, if v then 1 else 0) <$> b.

(** [hf[mask]]: the rows whose mask is 1.  (A row whose mask is NA is
    modelled as not selected; the frames split below have no NA in [Date],
    so their masks have none.) *)
Definition h2o_select (mask : ExtRow → option bool) (hf : H2OFrame) : H2OFrame :=
  {| col_names := col_names hf;
     frame_rows := filter (λ r, mask r = Some true) (frame_rows hf) |}.

(** The split of the notebook with the date test left open: [boundary]
    says which timestamps belong to the test data.
    [train = hf[is_test == 0]] and [test = hf[is_test == 1]]. *)
Definition splitByTimeBoundary (boundary : Z → bool) (hf : H2OFrame) : H2OFrame * H2OFrame :=
  let is_test r := boundary <$> Date (base r) in
  (h2o_select (λ r, h2o_eq (h2o_of_bool (is_test r)) 0) hf,
   h2o_select (λ r, h2o_eq (h2o_of_bool (is_test r)) 1) hf).

(** [is_test = (ext_stock_hf["Date"].year() == 2017) &
              (ext_stock_hf["Date"].month() == 12) &
              (ext_stock_hf["Date"].day() == 29)] *)
Definition is_test (r : ExtRow) : option bool :=
  h2o_and (h2o_and (h2o_eq (year <$> Date (base r)) 2017)
                   (h2o_eq (month <$> Date (base r)) 12))
          (h2o_eq (day <$> Date (base r)) 29).

Definition train (e : Engine) (csv : list StockRow) : H2OFrame :=
  h2o_select (λ r, h2o_eq (h2o_of_bool (is_test r)) 0) (ext_stock_hf e csv).

Definition test (e : Engine) (csv : list StockRow) : H2OFrame :=
  h2o_select (λ r, h2o_eq (h2o_of_bool (is_test r)) 1) (ext_stock_hf e csv).

(** The date test of the notebook as a predicate on timestamps. *)
Definition last_day (t : Z) : bool :=
  bool_decide (year t = 2017) && bool_decide (month t = 12) && bool_decide (day t = 29).

(** Strictly earlier, nulls first: the order of two rows of a partition
    whose timestamps differ. *)
Definition before (a b : StockRow) : Prop :=
  match Date a, Date b with
  | None, Some _ => True
  | Some x, Some y => x < y
  | _, None => False
  end.

(** ** The seven lags at once *)

(** The lags of the five passes, in the order of the lag columns of
    [ext_stock_df]. *)
Definition all_lags : list Lag :=
  volume_lags ++ close_lag ++ low_lag ++ high_lag ++ open_lag.

(** What the two feature cells would give with one [select] and one
    [na.drop()]:
    [stock_df.select("*", lag("Volume", 1).., .., lag("Open", 1)..).na.drop()]. *)
Definition ext_stock_df_single (e : Engine) (csv : list StockRow) : DataFrame :=
  lag_pass e all_lags (stock_df csv).

(** Every row of the frame has one lag cell per lag column. *)
Definition aligned (df : DataFrame) : Prop :=
  Forall (λ r, length (lags r) = length (lag_columns df)) (rows df).

(** The row of the frame before [select] from which [w] was built: [w] cut
    back to the first [n] lag columns. *)
Definition cut (n : nat) (w : ExtRow) : ExtRow :=
  {| base := base w; lags := take n (lags w) |}.

(** Every lag cell of [df] named in [gs] was read from a row of the file:
    of the same company as the row that holds it, and not later in time. *)
Definition read_from (csv : list StockRow) (df : DataFrame) (gs : list Lag) : Prop :=
  ∀ w g, w ∈ rows df → g ∈ gs →
    ∃ q, q ∈ csv ∧ Name q = Name (base w) ∧ date_le (raw q) w ∧
         lag_value df (alias g) w = Some (col (source g) q).

(** No two rows of a company carry the same [Date]: along each ordered
    partition the timestamps increase strictly. *)
Definition distinct_dates (df : DataFrame) : Prop :=
  ∀ key, NoDup ((λ r, Date (base r)) <$> partition_of key (rows df)).

(** ** Sample data *)

(** A row without missing values: company, day number, volume. *)
Definition quote (name : string) (d v : Z) : StockRow :=
  {| Date := Some (d * micros_per_day);
     Open := Some (dbl 10); High := Some (dbl 12); Low := Some (dbl 9);
     Close := Some (dbl 11); Volume := Some (dbl v); Name := Some name |}.

(** Five days of AAPL, in chronological order, between rows of IBM. *)
Definition aapl5 : list StockRow :=
  [ quote "AAPL" 17520 100; quote "IBM" 17520 7; quote "AAPL" 17521 200;
    quote "AAPL" 17522 300; quote "IBM" 17521 8; quote "AAPL" 17525 400;
    quote "AAPL" 17526 500 ].

(** The same five days of AAPL with the volume of the third day unknown. *)
Definition aapl_gap : list StockRow :=
  [ quote "AAPL" 17520 100; quote "AAPL" 17521 200;
    {| Date := Some (17522 * micros_per_day);
       Open := Some (dbl 10); High := Some (dbl 12); Low := Some (dbl 9);
       Close := Some (dbl 11); Volume := None; Name := Some "AAPL" |};
    quote "AAPL" 17525 400; quote "AAPL" 17526 500 ].

(** Two rows of the same day, with different volumes, then three days. *)
Definition aapl_tie : list StockRow :=
  [ quote "AAPL" 17520 100; quote "AAPL" 17520 150; quote "AAPL" 17521 200;
    quote "AAPL" 17522 300; quote "AAPL" 17525 400 ].

(** Eight days of AAPL ending on 2017-12-29 (day 17529). *)
Definition aapl8 : list StockRow :=
  (λ i, quote "AAPL" (17522 + i) (100 * (i + 1))) <$> [0; 1; 2; 3; 4; 5; 6; 7].

(** Eight days of AAPL with a close that changes every day; the open of
    the fifth day is unknown. *)
Definition aapl_hole : list StockRow :=
  (λ i, {| Date := Some ((17520 + i) * micros_per_day);
           Open := if bool_decide (i = 4) then None else Some (dbl 10);
           High := Some (dbl 12); Low := Some (dbl 9);
           Close := Some (dbl (50 + i)); Volume := Some (dbl (100 * (i + 1)));
           Name := Some "AAPL" |}) <$> [0; 1; 2; 3; 4; 5; 6; 7].

(** Ten days of AAPL ending on 2017-12-29. *)
Definition aapl10 : list StockRow :=
  (λ i, quote "AAPL" (17520 + i) (100 * (i + 1))) <$> [0; 1; 2; 3; 4; 5; 6; 7; 8; 9].

(** * Properties *)

(** ** The lag columns, position by position *)

Lemma length_lag_over g P : length (lag_over g P) = length P.
Proof.
  unfold lag_over. rewrite length_take, length_app, length_replicate, length_fmap. lia.
Qed.

Lemma lag_over_lookup g P i :
  (i < length P)%nat → lag_over g P !! i = Some (lag_at g P i).
Proof.
  intros Hi. unfold lag_over, lag_at.
  rewrite lookup_take_lt by done.
  destruct (decide (count g ≤ i)%nat) as [Hk|Hk].
  - rewrite lookup_app_r by (rewrite length_replicate; lia).
    rewrite length_replicate, list_lookup_fmap.
    destruct (lookup_lt_is_Some_2 P (i - count g)%nat) as [p Hp]; [lia|].
    by rewrite Hp.
  - rewrite lookup_app_l by (rewrite length_replicate; lia).
    apply lookup_replicate_2. lia.
Qed.

Lemma with_column_lookup W col i :
  with_column W col !! i =
  r ← W !! i; c ← col !! i; Some {| base := base r; lags := lags r ++ [c] |}.
Proof. unfold with_column. apply lookup_zip_with. Qed.

Lemma length_with_column W col :
  length col = length W → length (with_column W col) = length W.
Proof. intros H. unfold with_column. rewrite length_zip_with. lia. Qed.

Lemma foldl_with_column_lookup gs : ∀ P W i,
  length W = length P →
  foldl (λ W g, with_column W (lag_over g P)) W gs !! i =
  (λ r, {| base := base r; lags := lags r ++ ((λ g, lag_at g P i) <$> gs) |}) <$> W !! i.
Proof.
  induction gs as [|g gs IH]; intros P W i HW; simpl.
  - destruct (W !! i) as [[b l]|]; simpl; [|done]. by rewrite app_nil_r.
  - rewrite IH by (rewrite length_with_column; [done | by rewrite length_lag_over]).
    rewrite with_column_lookup.
    destruct (W !! i) as [r|] eqn:Hr; simpl; [|done].
    rewrite lag_over_lookup by (rewrite <- HW; by eapply lookup_lt_Some).
    simpl. by rewrite <- app_assoc.
Qed.

(** The shifted columns are the columns of the specification. *)
Lemma windowed_lookup gs P i : windowed gs P !! i = extend gs P i <$> P !! i.
Proof. unfold windowed. by rewrite foldl_with_column_lookup. Qed.

Lemma length_windowed gs P : length (windowed gs P) = length P.
Proof.
  apply Nat.le_antisymm.
  - apply Nat.nlt_ge. intros H. apply lookup_lt_is_Some_2 in H as [r Hr].
    rewrite windowed_lookup in Hr. apply fmap_Some in Hr as (p & Hp & _).
    apply lookup_lt_Some in Hp. lia.
  - apply Nat.nlt_ge. intros H. apply lookup_lt_is_Some_2 in H as [r Hr].
    pose proof (windowed_lookup gs P (length (windowed gs P))) as E.
    rewrite Hr in E. rewrite lookup_ge_None_2 in E by lia. done.
Qed.

Lemma windowed_imap gs P : windowed gs P = imap (extend gs P) P.
Proof.
  apply list_eq. intros i. by rewrite windowed_lookup, list_lookup_imap.
Qed.

Lemma base_windowed gs P : base <$> windowed gs P = base <$> P.
Proof.
  apply list_eq. intros i. rewrite !list_lookup_fmap, windowed_lookup.
  by destruct (P !! i).
Qed.

(** ** A pass works partition by partition *)

Lemma order_nil e : order_by_date e [] = [].
Proof. apply Permutation_nil_r. apply order_perm. Qed.

Lemma partition_of_app key l1 l2 :
  partition_of key (l1 ++ l2) = partition_of key l1 ++ partition_of key l2.
Proof. apply filter_app. Qed.

Lemma partition_of_same key l :
  Forall (λ r, Name (base r) = key) l → partition_of key l = l.
Proof.
  unfold partition_of. induction 1 as [|r l Hr _ IH]; [done|].
  rewrite filter_cons_True by done. by rewrite IH.
Qed.

Lemma partition_of_other key key' l :
  key' ≠ key → Forall (λ r, Name (base r) = key') l → partition_of key l = [].
Proof.
  intros Hne. unfold partition_of. induction 1 as [|r l Hr _ IH]; [done|].
  rewrite filter_cons_False by congruence. done.
Qed.

Lemma partition_of_absent key l : key ∉ keys l → partition_of key l = [].
Proof.
  unfold keys, partition_of. rewrite elem_of_remove_dups, list_elem_of_fmap.
  intros Hno. induction l as [|r l IH]; [done|].
  rewrite filter_cons_False.
  - apply IH. intros (r' & ? & ?). apply Hno. exists r'. split; [done | by right].
  - intros Hr. apply Hno. exists r. split; [done | by left].
Qed.

Lemma windowed_names e gs key l :
  Forall (λ r, Name (base r) = key) (windowed gs (order_by_date e (partition_of key l))).
Proof.
  apply Forall_forall. intros r Hr.
  assert (base r ∈ base <$> partition_of key l) as Hb.
  { rewrite <- (order_perm e), <- (base_windowed gs). by apply list_elem_of_fmap_2. }
  apply list_elem_of_fmap in Hb as (r' & -> & Hr').
  unfold partition_of in Hr'. by apply list_elem_of_filter in Hr' as [? _].
Qed.

Lemma partition_of_flat_map e gs key l ks :
  NoDup ks →
  partition_of key (flat_map (λ k, windowed gs (order_by_date e (partition_of k l))) ks) =
  if decide (key ∈ ks) then windowed gs (order_by_date e (partition_of key l)) else [].
Proof.
  induction 1 as [|k ks Hk Hks IH]; cbn [flat_map].
  - by rewrite decide_False by apply not_elem_of_nil.
  - rewrite partition_of_app, IH. destruct (decide (k = key)) as [->|Hne].
    + rewrite partition_of_same by apply windowed_names.
      destruct (decide (key ∈ ks)); [done|].
      destruct (decide (key ∈ key :: ks)) as [_|Hn]; [by rewrite app_nil_r|].
      exfalso. apply Hn. left.
    + rewrite (partition_of_other key k) by (done || apply windowed_names).
      cbn [app]. destruct (decide (key ∈ ks)) as [Hin|Hin].
      * destruct (decide (key ∈ k :: ks)) as [_|Hn]; [done|].
        exfalso. apply Hn. by right.
      * destruct (decide (key ∈ k :: ks)) as [Hn|_]; [|done].
        apply elem_of_cons in Hn as [->|Hn]; done.
Qed.

Lemma select_lags_partition e gs df key :
  partition_of key (rows (select_lags e gs df)) =
  windowed gs (order_by_date e (partition_of key (rows df))).
Proof.
  unfold select_lags. cbn [rows].
  rewrite partition_of_flat_map by apply NoDup_remove_dups.
  destruct (decide (key ∈ keys (rows df))) as [|Hno]; [done|].
  rewrite (partition_of_absent _ _ Hno), order_nil.
  symmetry. apply nil_length_inv. by rewrite length_windowed.
Qed.

Lemma partition_of_filter key (f : ExtRow → bool) l :
  partition_of key (filter (λ r, f r = true) l) =
  filter (λ r, f r = true) (partition_of key l).
Proof.
  unfold partition_of. rewrite !list_filter_filter.
  apply list_filter_iff. tauto.
Qed.

(** The rows of a company after a pass depend on the rows of that
    company before the pass, and on nothing else. *)
Lemma lag_pass_partition e gs df key :
  partition_of key (rows (lag_pass e gs df)) =
  partition_pass e gs (partition_of key (rows df)).
Proof.
  unfold lag_pass, na_drop, partition_pass. cbn [rows].
  by rewrite partition_of_filter, select_lags_partition.
Qed.

(** ** How many rows a pass keeps *)

Lemma max_offset_le gs i : (max_offset gs ≤ i)%nat ↔ Forall (λ g, (count g ≤ i)%nat) gs.
Proof.
  unfold max_offset. induction gs as [|g gs IH]; simpl.
  - split; [constructor | lia].
  - rewrite Forall_cons, <- IH. lia.
Qed.

Lemma complete_stock_col m r : complete_stock r = true → present (col m r) = true.
Proof.
  unfold complete_stock. rewrite !andb_true_iff.
  intros [[[[[[_ ?] ?] ?] ?] ?] _]. by destruct m.
Qed.

Lemma complete_extend gs P i r :
  complete (extend gs P i r) = true ↔
  complete r = true ∧ Forall (λ g, present (lag_at g P i) = true) gs.
Proof.
  unfold complete, extend. cbn [base lags].
  rewrite forallb_app, !andb_true_iff, !forallb_forall, !Forall_forall.
  setoid_rewrite in_map_iff. setoid_rewrite <- list_elem_of_In.
  split.
  - intros (? & ? & Hgs). repeat split; [done..|]. intros g Hg. apply Hgs. eauto.
  - intros ((? & ?) & Hgs). repeat split; [done..|]. intros c (g & <- & Hg). auto.
Qed.

(** In a partition without missing values, the only missing lags are
    those that reach before the first row. *)
Lemma present_lag_at g P i :
  Forall (λ r, complete r = true) P → (i < length P)%nat →
  present (lag_at g P i) = true ↔ (count g ≤ i)%nat.
Proof.
  intros HP Hi. unfold lag_at. destruct (decide (count g ≤ i)%nat) as [Hk|Hk].
  - destruct (lookup_lt_is_Some_2 P (i - count g)%nat) as [p Hp]; [lia|].
    rewrite Hp. cbn. split; [done|]. intros _.
    apply complete_stock_col.
    rewrite Forall_forall in HP. specialize (HP p (list_elem_of_lookup_2 _ _ _ Hp)).
    unfold complete in HP. by apply andb_true_iff in HP as [? _].
  - cbn. split; [done | lia].
Qed.

Lemma filter_from (A : Type) (Q : A → Prop) `{!∀ x, Decision (Q x)} (l : list A) : ∀ m,
  (∀ i x, l !! i = Some x → Q x ↔ (m ≤ i)%nat) → filter Q l = drop m l.
Proof.
  induction l as [|x l IH]; intros m Hl; [by rewrite drop_nil|].
  destruct m as [|m].
  - rewrite filter_cons_True by (apply (Hl 0%nat); [done | lia]).
    rewrite (IH 0%nat); [done|]. intros i y Hy.
    rewrite (Hl (S i) y Hy). lia.
  - rewrite filter_cons_False by (rewrite (Hl 0%nat x eq_refl); lia).
    cbn [drop]. apply IH. intros i y Hy. rewrite (Hl (S i) y Hy). lia.
Qed.

(** On a partition without missing values a pass drops the first
    [max_offset] rows of the ordered partition, and nothing else. *)
Lemma partition_pass_complete e gs P :
  Forall (λ r, complete r = true) P →
  partition_pass e gs P = drop (max_offset gs) (windowed gs (order_by_date e P)).
Proof.
  intros HP. unfold partition_pass.
  assert (Forall (λ r, complete r = true) (order_by_date e P)) as HP'.
  { by rewrite (order_perm e). }
  apply filter_from. intros i w Hw.
  rewrite windowed_lookup in Hw. apply fmap_Some in Hw as (r & Hr & ->).
  rewrite complete_extend, max_offset_le. split.
  - intros [_ Hgs]. eapply Forall_impl; [exact Hgs|]. intros g Hg. cbv beta in Hg.
    by apply (present_lag_at g _ i HP' (lookup_lt_Some _ _ _ Hr)).
  - intros Hgs. split.
    + rewrite Forall_forall in HP'. apply HP'. by eapply list_elem_of_lookup_2.
    + eapply Forall_impl; [exact Hgs|]. intros g Hg. cbv beta in Hg.
      by apply (present_lag_at g _ i HP' (lookup_lt_Some _ _ _ Hr)).
Qed.

Lemma partition_pass_all_complete e gs P :
  Forall (λ r, complete r = true) (partition_pass e gs P).
Proof.
  apply Forall_forall. intros r Hr. unfold partition_pass in Hr.
  by apply list_elem_of_filter in Hr as [? _].
Qed.

Lemma length_partition_pass e gs P :
  Forall (λ r, complete r = true) P →
  length (partition_pass e gs P) = (length P - max_offset gs)%nat.
Proof.
  intros HP. rewrite partition_pass_complete by done.
  rewrite length_drop, length_windowed. by rewrite (order_perm e).
Qed.

Lemma base_partition_pass e gs P :
  Forall (λ r, complete r = true) P →
  base <$> partition_pass e gs P = drop (max_offset gs) (base <$> order_by_date e P).
Proof.
  intros HP. rewrite partition_pass_complete by done.
  by rewrite fmap_drop, base_windowed.
Qed.


(** ** The rows of [stock_df] *)

Lemma stock_df_partition key csv :
  partition_of key (rows (stock_df csv)) = raw <$> company key csv.
Proof.
  unfold partition_of, company, stock_df. cbn [rows].
  induction csv as [|r csv IH]; [done|]. cbn [fmap list_fmap].
  destruct (decide (Name r = key)) as [Hr|Hr].
  - rewrite !filter_cons_True by done. cbn [fmap list_fmap]. by f_equal.
  - rewrite !filter_cons_False by done. done.
Qed.

Lemma ordered_raw e key csv :
  Forall (λ p, lags p = []) (order_by_date e (partition_of key (rows (stock_df csv)))).
Proof.
  rewrite (order_perm e), stock_df_partition.
  apply Forall_fmap, Forall_true. done.
Qed.

(** ** Ordering a partition without ties *)

Lemma date_le_antisym (x y : ExtRow) :
  date_le x y → date_le y x → Date (base x) = Date (base y).
Proof.
  unfold date_le. destruct (Date (base x)), (Date (base y)); try done.
  intros. f_equal. lia.
Qed.

Lemma NoDup_fmap_eq {A B} (f : A → B) (l : list A) x y :
  NoDup (f <$> l) → x ∈ l → y ∈ l → f x = f y → x = y.
Proof.
  intros Hnd Hx Hy Hf.
  apply list_elem_of_lookup in Hx as [i Hi]. apply list_elem_of_lookup in Hy as [j Hj].
  assert (i = j) as ->.
  { apply (NoDup_lookup _ i j (f x) Hnd); rewrite list_lookup_fmap.
    - by rewrite Hi.
    - by rewrite Hj, Hf. }
  congruence.
Qed.

(** Two ordered permutations of rows with pairwise distinct dates are
    equal. *)
Lemma ordered_unique (l l1 l2 : list ExtRow) :
  NoDup ((λ r, Date (base r)) <$> l) →
  l1 ≡ₚ l → l2 ≡ₚ l → Sorted date_le l1 → Sorted date_le l2 → l1 = l2.
Proof.
  intros Hnd H1 H2 S1 S2.
  apply (Sorted_unique_strong date_le); [|done|done|by rewrite H1, H2].
  intros x1 x2 Hx1 Hx2 Hle Hge.
  apply (NoDup_fmap_eq (λ r, Date (base r)) l); [done|by rewrite <- H1|by rewrite <- H2|].
  by apply date_le_antisym.
Qed.

Lemma order_unique e1 e2 l :
  NoDup ((λ r, Date (base r)) <$> l) → order_by_date e1 l = order_by_date e2 l.
Proof.
  intros Hnd. apply (ordered_unique l); auto using order_perm, order_sorted.
Qed.

Lemma order_sorted_id e l :
  NoDup ((λ r, Date (base r)) <$> l) → Sorted date_le l → order_by_date e l = l.
Proof.
  intros Hnd Hs. apply (ordered_unique l); auto using order_perm, order_sorted.
Qed.

(** ** Lag values and dropped rows *)

Lemma missing_lag_incomplete gs P i p g :
  g ∈ gs → missing (lag_at g P i) = true → complete (extend gs P i p) = false.
Proof.
  intros Hg Hm. apply not_true_is_false. rewrite complete_extend.
  intros [_ Hgs]. rewrite Forall_forall in Hgs. specialize (Hgs g Hg).
  unfold present in Hgs. rewrite Hm in Hgs. done.
Qed.

Lemma na_drop_complete df r : r ∈ rows (na_drop df) → complete r = true.
Proof. unfold na_drop. cbn [rows]. intros Hr. by apply list_elem_of_filter in Hr as [? _]. Qed.

Lemma lag_at_reaches g P i :
  (count g ≤ i)%nat →
  Some (lag_at g P i) = (λ q, col (source g) (base q)) <$> P !! (i - count g)%nat
  ∨ P !! i = None.
Proof.
  intros Hk. unfold lag_at. rewrite decide_True by done.
  destruct (P !! (i - count g)%nat) as [q|] eqn:Hq; [by left|].
  right. apply lookup_ge_None. apply lookup_ge_None in Hq. lia.
Qed.

(** C1.  Volume pass of the notebook.  Let [P] be the rows of one company
    in the order of the window (ascending by [Date]), and [w] the row that
    [select] builds at position [i] of [P].  For every lag [g] of the
    specification, with offset [k = count g]: when [i ≥ k] the lag column
    named [alias g] holds, in [w], the [Volume] found at position [i - k]
    of [P]; when [i < k] the row [w] is not in the output.  The output rows
    of the company are the rows built at the positions of [P] that
    [na.drop] keeps. *)
Theorem lag_correctness e csv key i w g :
  let P := order_by_date e (partition_of key (rows (stock_df csv))) in
  let out := ext_stock_df_volume e csv in
  windowed volume_lags P !! i = Some w →
  g ∈ volume_lags →
  (Sorted date_le P ∧ P ≡ₚ partition_of key (rows (stock_df csv))) ∧
  base <$> P !! i = Some (base w) ∧
  ((count g ≤ i)%nat →
     lag_value out (alias g) w = (λ q, Volume (base q)) <$> P !! (i - count g)%nat) ∧
  ((i < count g)%nat → w ∉ rows out) ∧
  partition_of key (rows out) = filter (λ r, complete r = true) (windowed volume_lags P).
Proof.
  intros P out Hw Hg.
  split; [split; [apply order_sorted | apply order_perm]|].
  pose proof Hw as Hw'. rewrite windowed_lookup in Hw'.
  apply fmap_Some in Hw' as (p & Hp & ->).
  assert (lags p = []) as Hraw.
  { pose proof (ordered_raw e key csv) as Hr. rewrite Forall_forall in Hr.
    apply Hr. by eapply list_elem_of_lookup_2. }
  split; [by rewrite Hp|]. split; [|split].
  - intros Hk.
    assert (lag_value out (alias g) (extend volume_lags P i p) = Some (lag_at g P i)) as ->.
    { unfold lag_value, extend. cbn [lags]. rewrite Hraw.
      unfold volume_lags in Hg. rewrite !elem_of_cons in Hg.
      destruct Hg as [->|[->|[->|Hg]]]; [done..|]. by apply not_elem_of_nil in Hg. }
    destruct (lag_at_reaches g P i Hk) as [->|Hn]; [|congruence].
    unfold volume_lags in Hg. rewrite !elem_of_cons in Hg.
    destruct Hg as [->|[->|[->|Hg]]]; [done..|]. by apply not_elem_of_nil in Hg.
  - intros Hk Hin. apply na_drop_complete in Hin.
    rewrite (missing_lag_incomplete volume_lags P i p g) in Hin; [done..|].
    unfold lag_at. by rewrite decide_False by lia.
  - unfold out, ext_stock_df_volume. by rewrite lag_pass_partition.
Qed.

Lemma lag_correctness_witness :
  let P := order_by_date merge_engine (partition_of (Some "AAPL") (rows (stock_df aapl5))) in
  let g := {| source := VolumeCol; count := 2; alias := "Volume_lag2" |} in
  let w := {| base := quote "AAPL" 17525 400;
              lags := [Some (dbl 300); Some (dbl 200); Some (dbl 100)] |} in
  windowed volume_lags P !! 3%nat = Some w ∧ g ∈ volume_lags ∧
  lag_value (ext_stock_df_volume merge_engine aapl5) "Volume_lag2" w = Some (Some (dbl 200)).
Proof.
  intros P g w.
  assert (windowed volume_lags P !! 3%nat = Some w) as Hw by (vm_compute; reflexivity).
  assert (g ∈ volume_lags) as Hg by (right; left).
  split; [exact Hw|]. split; [exact Hg|].
  destruct (lag_correctness merge_engine aapl5 (Some "AAPL") 3 w g Hw Hg) as (_ & _ & Hv & _).
  etransitivity; [apply Hv; cbn; lia|]. vm_compute. reflexivity.
Defined.

(** ** The example of the specification *)

#[global] Instance before_trans : Transitive before.
Proof.
  intros x y z. unfold before. destruct (Date x), (Date y), (Date z); try done. lia.
Qed.

Lemma before_date_le a b : before a b → date_le (raw a) (raw b).
Proof. unfold before, date_le. cbn. destruct (Date a), (Date b); try done. lia. Qed.

Lemma before_ne a b : before a b → Date a ≠ Date b.
Proof. unfold before. destruct (Date a), (Date b); try done. intros ? [=]. lia. Qed.

Lemma chronological_NoDup l : Sorted before l → NoDup (Date <$> l).
Proof.
  intros Hs. apply Sorted_StronglySorted in Hs; [|apply _].
  induction Hs as [|x l _ IH Hx]; csimpl; constructor; [|done].
  rewrite list_elem_of_fmap. intros (y & Hxy & Hy).
  rewrite Forall_forall in Hx. by apply (before_ne x y (Hx y Hy)).
Qed.

(** A partition that is already in chronological order, without ties,
    leaves the engine no choice. *)
Lemma order_chronological e l :
  Sorted before l → order_by_date e (raw <$> l) = raw <$> l.
Proof.
  intros Hs. apply order_sorted_id.
  - rewrite <- list_fmap_compose. by apply chronological_NoDup.
  - apply (Sorted_fmap raw before date_le); [|done]. apply before_date_le.
Qed.

Lemma complete_raw r : complete (raw r) = complete_stock r.
Proof. unfold complete, raw. cbn. by rewrite andb_true_r. Qed.

(** C3.  Five rows of AAPL in chronological order, without missing
    values, with volumes 100, 200, 300, 400, 500: the Volume pass (lags 1,
    2 and 3) outputs exactly two rows of AAPL, those of positions 3 and 4;
    the first carries Volume_lag1 = 300, Volume_lag2 = 200, Volume_lag3 =
    100 and the second Volume_lag1 = 400, Volume_lag2 = 300, Volume_lag3 =
    200. *)
Theorem aapl_example e csv r0 r1 r2 r3 r4 :
  company (Some "AAPL") csv = [r0; r1; r2; r3; r4] →
  Sorted before [r0; r1; r2; r3; r4] →
  Forall (λ r, complete_stock r = true) [r0; r1; r2; r3; r4] →
  Volume <$> [r0; r1; r2; r3; r4] = (λ v, Some (dbl v)) <$> [100; 200; 300; 400; 500] →
  let out := ext_stock_df_volume e csv in
  ∃ w3 w4,
    partition_of (Some "AAPL") (rows out) = [w3; w4] ∧
    base w3 = r3 ∧ base w4 = r4 ∧
    lag_value out "Volume_lag1" w3 = Some (Some (dbl 300)) ∧
    lag_value out "Volume_lag2" w3 = Some (Some (dbl 200)) ∧
    lag_value out "Volume_lag3" w3 = Some (Some (dbl 100)) ∧
    lag_value out "Volume_lag1" w4 = Some (Some (dbl 400)) ∧
    lag_value out "Volume_lag2" w4 = Some (Some (dbl 300)) ∧
    lag_value out "Volume_lag3" w4 = Some (Some (dbl 200)).
Proof.
  intros Hco Hs Hc Hv out.
  assert (partition_of (Some "AAPL") (rows out) =
          drop 3 (windowed volume_lags (raw <$> [r0; r1; r2; r3; r4]))) as Hout.
  { unfold out, ext_stock_df_volume.
    rewrite lag_pass_partition, stock_df_partition, Hco.
    rewrite partition_pass_complete.
    - by rewrite order_chronological.
    - apply Forall_fmap. eapply Forall_impl; [exact Hc|].
      intros r Hr. cbn. by rewrite complete_raw. }
  injection Hv as Hv0 Hv1 Hv2 Hv3 Hv4.
  cbn in Hout. rewrite Hv0, Hv1, Hv2, Hv3 in Hout.
  eexists _, _. split; [exact Hout|]. repeat split.
Qed.

Lemma aapl_example_witness :
  company (Some "AAPL") aapl5 =
    [ quote "AAPL" 17520 100; quote "AAPL" 17521 200; quote "AAPL" 17522 300;
      quote "AAPL" 17525 400; quote "AAPL" 17526 500 ] ∧
  length (partition_of (Some "AAPL") (rows (ext_stock_df_volume merge_engine aapl5))) = 2%nat.
Proof.
  split; [vm_compute; reflexivity|].
  destruct (aapl_example merge_engine aapl5
              (quote "AAPL" 17520 100) (quote "AAPL" 17521 200) (quote "AAPL" 17522 300)
              (quote "AAPL" 17525 400) (quote "AAPL" 17526 500))
    as (w3 & w4 & -> & _).
  - vm_compute; reflexivity.
  - repeat constructor; vm_compute; reflexivity.
  - repeat constructor.
  - vm_compute; reflexivity.
  - reflexivity.
Defined.

(** ** Missing lags: dropped, not filled in *)

(** C7.  Any pass [out = df.select("*", lags..).na.drop()] of the
    notebook's form, on any frame [df]; each of the five passes is one.
    Let [P] be a company's partition of [df] in window order, [w] the row
    that [select] builds at position [i] of [P] and [g] one of the lags.
    If the lag reaches before the start of the partition ([i < count g]),
    or reads a missing value (a null, or a NaN) at position [i - count g],
    then:
    - [w] is the row at position [i] with one new cell per lag, and the
      cell of [g] is missing: a null for missing history, the missing
      source value itself otherwise; nothing is filled in;
    - the rows of the company in [out] are exactly the built rows that
      [na.drop()] keeps, in window order; each of them was built at a
      position other than [i], and each of its new cells is a present
      source value found [count] rows earlier in [P];
    - so [w] is not a row of [out], and no row of [out] has a missing
      value.
    The pass is a total function: it returns a frame on every input. *)
Theorem missing_lag_drops_row e gs df key i w g :
  let P := order_by_date e (partition_of key (rows df)) in
  let out := lag_pass e gs df in
  windowed gs P !! i = Some w →
  g ∈ gs →
  ((i < count g)%nat ∨
   (∃ q, P !! (i - count g)%nat = Some q ∧ missing (col (source g) (base q)) = true)) →
  (∃ p, P !! i = Some p ∧ base w = base p ∧
        lags w = lags p ++ ((λ g', lag_at g' P i) <$> gs)) ∧
  missing (lag_at g P i) = true ∧
  (∃ c, c ∈ lags w ∧ missing c = true) ∧
  partition_of key (rows out) = filter (λ r, complete r = true) (windowed gs P) ∧
  (∀ r, r ∈ partition_of key (rows out) →
     ∃ i' p', i' ≠ i ∧ P !! i' = Some p' ∧ base r = base p' ∧
       lags r = lags p' ++ ((λ g', lag_at g' P i') <$> gs) ∧
       Forall (λ g', (count g' ≤ i')%nat ∧
                     (∃ q, P !! (i' - count g')%nat = Some q ∧
                           lag_at g' P i' = col (source g') (base q)) ∧
                     present (lag_at g' P i') = true) gs) ∧
  (w ∉ rows out) ∧
  Forall (λ r, complete r = true) (rows out).
Proof.
  intros P out Hw Hg Hmiss.
  rewrite windowed_lookup in Hw. apply fmap_Some in Hw as (p & Hp & ->).
  assert (missing (lag_at g P i) = true) as Hm.
  { unfold lag_at. destruct (decide (count g ≤ i)%nat) as [Hk|Hk]; [|done].
    destruct Hmiss as [?|(q & Hq & Hm)]; [lia|]. by rewrite Hq. }
  assert (partition_of key (rows out) =
          filter (λ r, complete r = true) (windowed gs P)) as Hout.
  { unfold out. by rewrite lag_pass_partition. }
  split; [by exists p|]. split; [done|]. split; [|split; [done|split; [|split]]].
  - exists (lag_at g P i). split; [|done]. unfold extend. cbn [lags].
    apply elem_of_app. right. by apply (list_elem_of_fmap_2 (λ g, lag_at g P i)).
  - intros r Hr. rewrite Hout in Hr. apply list_elem_of_filter in Hr as [Hc Hr].
    apply list_elem_of_lookup in Hr as [i' Hi'].
    rewrite windowed_lookup in Hi'. apply fmap_Some in Hi' as (p' & Hp' & ->).
    exists i', p'. split; [|split; [done|split; [done|split; [done|]]]].
    + intros ->. assert (p' = p) as -> by congruence.
      by rewrite (missing_lag_incomplete gs P i p g) in Hc.
    + apply complete_extend in Hc as [_ Hgs].
      eapply Forall_impl; [exact Hgs|]. intros g' Hg'. cbv beta in Hg'.
      assert (count g' ≤ i')%nat as Hk'.
      { apply Nat.nlt_ge. intros Hlt. unfold lag_at in Hg'.
        by rewrite decide_False in Hg' by lia. }
      split; [done|]. split; [|done].
      destruct (lookup_lt_is_Some_2 P (i' - count g')%nat) as [q Hq].
      { apply lookup_lt_Some in Hp'. lia. }
      exists q. split; [done|]. unfold lag_at. by rewrite decide_True, Hq by done.
  - intros Hin. apply na_drop_complete in Hin.
    by rewrite (missing_lag_incomplete gs P i p g) in Hin.
  - apply Forall_forall. intros r. apply na_drop_complete.
Qed.

Lemma missing_lag_drops_row_witness :
  let df := stock_df aapl_gap in
  let P := order_by_date merge_engine (partition_of (Some "AAPL") (rows df)) in
  let g := {| source := VolumeCol; count := 1; alias := "Volume_lag1" |} in
  let w := {| base := quote "AAPL" 17525 400;
              lags := [None; Some (dbl 200); Some (dbl 100)] |} in
  windowed volume_lags P !! 3%nat = Some w ∧ g ∈ volume_lags ∧
  (∃ q, P !! 2%nat = Some q ∧ missing (Volume (base q)) = true) ∧
  w ∉ rows (lag_pass merge_engine volume_lags df).
Proof.
  intros df P g w.
  assert (windowed volume_lags P !! 3%nat = Some w) as Hw by (vm_compute; reflexivity).
  assert (g ∈ volume_lags) as Hg by left.
  assert (∃ q, P !! 2%nat = Some q ∧ missing (Volume (base q)) = true) as Hq.
  { eexists. split; vm_compute; reflexivity. }
  split; [exact Hw|]. split; [exact Hg|]. split; [exact Hq|].
  destruct (missing_lag_drops_row merge_engine volume_lags df (Some "AAPL") 3 w g Hw Hg)
    as (_ & _ & _ & _ & _ & Hdrop & _); [|exact Hdrop].
  right. exact Hq.
Defined.

(** ** The chain of passes, company by company *)

Lemma ext_stock_df_volume_partition e csv key :
  partition_of key (rows (ext_stock_df_volume e csv)) =
  partition_pass e volume_lags (raw <$> company key csv).
Proof. unfold ext_stock_df_volume. by rewrite lag_pass_partition, stock_df_partition. Qed.

Lemma ext_stock_df_close_partition e csv key :
  partition_of key (rows (ext_stock_df_close e csv)) =
  partition_pass e close_lag (partition_of key (rows (ext_stock_df_volume e csv))).
Proof. apply lag_pass_partition. Qed.

Lemma ext_stock_df_low_partition e csv key :
  partition_of key (rows (ext_stock_df_low e csv)) =
  partition_pass e low_lag (partition_of key (rows (ext_stock_df_close e csv))).
Proof. apply lag_pass_partition. Qed.

Lemma ext_stock_df_high_partition e csv key :
  partition_of key (rows (ext_stock_df_high e csv)) =
  partition_pass e high_lag (partition_of key (rows (ext_stock_df_low e csv))).
Proof. apply lag_pass_partition. Qed.

Lemma ext_stock_df_partition e csv key :
  partition_of key (rows (ext_stock_df e csv)) =
  partition_pass e open_lag (partition_of key (rows (ext_stock_df_high e csv))).
Proof. apply lag_pass_partition. Qed.

Lemma partition_all_complete e gs df key :
  Forall (λ r, complete r = true) (partition_of key (rows (lag_pass e gs df))).
Proof. rewrite lag_pass_partition. apply partition_pass_all_complete. Qed.

(** The row count of one company after one pass, when no row of the
    company had a missing value before the pass. *)
Lemma lag_pass_count e gs df key :
  Forall (λ r, complete r = true) (partition_of key (rows df)) →
  length (partition_of key (rows (lag_pass e gs df))) =
  (length (partition_of key (rows df)) - max_offset gs)%nat.
Proof. intros HP. rewrite lag_pass_partition. by apply length_partition_pass. Qed.

(** The rows of one company after one pass are those of the ordered
    partition before the pass, less its first [max_offset] rows. *)
Lemma lag_pass_earliest e gs df key :
  Forall (λ r, complete r = true) (partition_of key (rows df)) →
  base <$> partition_of key (rows (lag_pass e gs df)) =
  drop (max_offset gs) (base <$> order_by_date e (partition_of key (rows df))).
Proof. intros HP. rewrite lag_pass_partition. by apply base_partition_pass. Qed.

(** ** Row counts *)

Lemma filter_before (A : Type) (Q : A → Prop) `{!∀ x, Decision (Q x)} (l : list A) m :
  (∀ i x, l !! i = Some x → Q x → (m ≤ i)%nat) →
  (length (filter Q l) ≤ length l - m)%nat.
Proof.
  intros Hl. rewrite <- (take_drop m l) at 1. rewrite filter_app.
  assert (filter Q (take m l) = []) as ->.
  { apply nil_length_inv. apply Nat.le_antisymm; [|lia].
    apply Nat.nlt_ge. intros Hlen. apply lookup_lt_is_Some_2 in Hlen as [x Hx].
    apply list_elem_of_lookup_2, list_elem_of_filter in Hx as [HQ Hx].
    apply list_elem_of_lookup in Hx as [i Hi].
    pose proof (lookup_lt_Some _ _ _ Hi) as Hlt. rewrite length_take in Hlt.
    rewrite lookup_take_lt in Hi by lia. specialize (Hl i x Hi HQ). lia. }
  cbn [app]. etransitivity; [apply length_filter|]. by rewrite length_drop.
Qed.

Lemma length_partition_pass_le e gs P :
  (length (partition_pass e gs P) ≤ length P - max_offset gs)%nat.
Proof.
  unfold partition_pass. rewrite <- (Permutation_length (order_perm e P)).
  rewrite <- (length_windowed gs (order_by_date e P)).
  apply filter_before. intros i w Hw Hc.
  rewrite windowed_lookup in Hw. apply fmap_Some in Hw as (p & Hp & ->).
  apply complete_extend in Hc as [_ Hgs].
  apply max_offset_le. eapply Forall_impl; [exact Hgs|]. intros g Hg. cbv beta in Hg.
  apply Nat.nlt_ge. intros Hlt. unfold lag_at in Hg.
  rewrite decide_False in Hg by lia. done.
Qed.

(** C2, as amended.  The count holds pass by pass.  For every frame, every
    lag specification [gs] and every company: the pass
    [select("*", gs..).na.drop()] outputs at most [max(0, n - m)] rows of
    the company, where [n] is the number of its rows before the pass and
    [m] the largest offset of [gs]; it outputs exactly that many when no
    row of the company has a missing value before the pass. *)
Theorem drop_consistency e gs df key :
  let n := Z.of_nat (length (partition_of key (rows df))) in
  let m := Z.of_nat (max_offset gs) in
  let out := Z.of_nat (length (partition_of key (rows (lag_pass e gs df)))) in
  out ≤ Z.max 0 (n - m) ∧
  (Forall (λ r, complete r = true) (partition_of key (rows df)) → out = Z.max 0 (n - m)).
Proof.
  intros n m out. unfold n, m, out. split.
  - rewrite lag_pass_partition.
    pose proof (length_partition_pass_le e gs (partition_of key (rows df))). lia.
  - intros HP. rewrite lag_pass_count by done. lia.
Qed.

Lemma drop_consistency_witness :
  Forall (λ r, complete r = true) (partition_of (Some "AAPL") (rows (stock_df aapl5))) ∧
  max_offset volume_lags = 3%nat ∧
  Z.of_nat (length (partition_of (Some "AAPL")
                      (rows (lag_pass merge_engine volume_lags (stock_df aapl5))))) = 2.
Proof.
  assert (Forall (λ r, complete r = true)
            (partition_of (Some "AAPL") (rows (stock_df aapl5)))) as HP.
  { apply Forall_forall. intros r Hr. vm_compute in Hr.
    repeat (apply elem_of_cons in Hr as [->|Hr]; [vm_compute; reflexivity|]).
    by apply not_elem_of_nil in Hr. }
  split; [exact HP|]. split; [reflexivity|].
  destruct (drop_consistency merge_engine volume_lags (stock_df aapl5) (Some "AAPL"))
    as [_ Heq].
  etransitivity; [exact (Heq HP)|]. vm_compute. reflexivity.
Defined.

(** C2 as stated fails twice.  Eight rows of one company without missing
    values leave one row in [ext_stock_df], not [max(0, 8 - 3) = 5]; and
    five rows of which the third has no [Volume] leave no row after the
    Volume pass, not [max(0, 5 - 3) = 2]. *)
Lemma drop_count_counterexample :
  (let n := length (company (Some "AAPL") aapl8) in
   let out := partition_of (Some "AAPL") (rows (ext_stock_df merge_engine aapl8)) in
   n = 8%nat ∧ length out = 1%nat ∧ Z.of_nat (length out) ≠ Z.max 0 (Z.of_nat n - 3)) ∧
  (let n := length (company (Some "AAPL") aapl_gap) in
   let out := partition_of (Some "AAPL") (rows (ext_stock_df_volume merge_engine aapl_gap)) in
   n = 5%nat ∧ length out = 0%nat ∧ Z.of_nat (length out) ≠ Z.max 0 (Z.of_nat n - 3)).
Proof. vm_compute. repeat split; congruence. Qed.

(** ** The chain of five passes *)

Lemma company_complete key csv :
  Forall (λ r, complete_stock r = true) (company key csv) →
  Forall (λ r, complete r = true) (partition_of key (rows (stock_df csv))).
Proof.
  intros Hc. rewrite stock_df_partition. apply Forall_fmap.
  eapply Forall_impl; [exact Hc|]. intros r Hr. cbn. by rewrite complete_raw.
Qed.

Lemma length_stock_df_partition key csv :
  length (partition_of key (rows (stock_df csv))) = length (company key csv).
Proof. by rewrite stock_df_partition, length_fmap. Qed.

(** C10.  A company with [n] rows that are null-free as [na.drop()]
    understands it: no null and, in the double columns, no NaN.  The Volume
    pass keeps [n - 3] of them, and each of the four passes that follow
    (Close, Low, High, Open) drops one more: the first row of the ordered
    partition it receives.  [ext_stock_df] has [max(0, n - 7)] rows of the
    company (subtraction of naturals stops at 0). *)
Theorem chained_passes_count e csv key :
  let n := length (company key csv) in
  let part df := partition_of key (rows df) in
  Forall (λ r, complete_stock r = true) (company key csv) →
  (length (part (ext_stock_df_volume e csv)) = (n - 3)%nat ∧
   length (part (ext_stock_df_close e csv)) = (n - 4)%nat ∧
   length (part (ext_stock_df_low e csv)) = (n - 5)%nat ∧
   length (part (ext_stock_df_high e csv)) = (n - 6)%nat ∧
   length (part (ext_stock_df e csv)) = (n - 7)%nat) ∧
  Z.of_nat (length (part (ext_stock_df e csv))) = Z.max 0 (Z.of_nat n - 7) ∧
  (base <$> part (ext_stock_df_close e csv) =
     drop 1 (base <$> order_by_date e (part (ext_stock_df_volume e csv))) ∧
   base <$> part (ext_stock_df_low e csv) =
     drop 1 (base <$> order_by_date e (part (ext_stock_df_close e csv))) ∧
   base <$> part (ext_stock_df_high e csv) =
     drop 1 (base <$> order_by_date e (part (ext_stock_df_low e csv))) ∧
   base <$> part (ext_stock_df e csv) =
     drop 1 (base <$> order_by_date e (part (ext_stock_df_high e csv)))).
Proof.
  intros n part Hc. unfold part.
  pose proof (company_complete key csv Hc) as H0.
  pose proof (partition_all_complete e volume_lags (stock_df csv) key) as H1.
  pose proof (partition_all_complete e close_lag (ext_stock_df_volume e csv) key) as H2.
  pose proof (partition_all_complete e low_lag (ext_stock_df_close e csv) key) as H3.
  pose proof (partition_all_complete e high_lag (ext_stock_df_low e csv) key) as H4.
  pose proof (lag_pass_count e volume_lags _ key H0) as L1.
  pose proof (lag_pass_count e close_lag _ key H1) as L2.
  pose proof (lag_pass_count e low_lag _ key H2) as L3.
  pose proof (lag_pass_count e high_lag _ key H3) as L4.
  pose proof (lag_pass_count e open_lag _ key H4) as L5.
  rewrite length_stock_df_partition in L1. fold n in L1.
  change (max_offset volume_lags) with 3%nat in L1.
  change (max_offset close_lag) with 1%nat in L2.
  change (max_offset low_lag) with 1%nat in L3.
  change (max_offset high_lag) with 1%nat in L4.
  change (max_offset open_lag) with 1%nat in L5.
  fold (ext_stock_df_volume e csv) in *. fold (ext_stock_df_close e csv) in *.
  fold (ext_stock_df_low e csv) in *. fold (ext_stock_df_high e csv) in *.
  fold (ext_stock_df e csv) in *.
  split; [|split].
  - repeat split; lia.
  - lia.
  - repeat split.
    + exact (lag_pass_earliest e close_lag _ key H1).
    + exact (lag_pass_earliest e low_lag _ key H2).
    + exact (lag_pass_earliest e high_lag _ key H3).
    + exact (lag_pass_earliest e open_lag _ key H4).
Qed.

Lemma chained_passes_count_witness :
  Forall (λ r, complete_stock r = true) (company (Some "AAPL") aapl8) ∧
  length (company (Some "AAPL") aapl8) = 8%nat ∧
  length (partition_of (Some "AAPL") (rows (ext_stock_df merge_engine aapl8))) = 1%nat.
Proof.
  assert (Forall (λ r, complete_stock r = true) (company (Some "AAPL") aapl8)) as Hc.
  { apply Forall_forall. intros r Hr. vm_compute in Hr.
    repeat (apply elem_of_cons in Hr as [->|Hr]; [vm_compute; reflexivity|]).
    by apply not_elem_of_nil in Hr. }
  split; [exact Hc|]. split; [reflexivity|].
  destruct (chained_passes_count merge_engine aapl8 (Some "AAPL") Hc)
    as [(_ & _ & _ & _ & ->) _].
  reflexivity.
Defined.

(** ** Isolation of the companies *)

(** C5.  Two inputs with the same rows of company [key] (and any rows of
    other companies): the rows of [key] in the output are the same, after
    the Volume pass and after the whole chain.  Lags are read inside the
    partition and nowhere else. *)
Theorem partition_isolation e csv1 csv2 key :
  company key csv1 = company key csv2 →
  partition_of key (rows (ext_stock_df_volume e csv1)) =
    partition_of key (rows (ext_stock_df_volume e csv2)) ∧
  partition_of key (rows (ext_stock_df e csv1)) =
    partition_of key (rows (ext_stock_df e csv2)).
Proof.
  intros Hco.
  assert (partition_of key (rows (ext_stock_df_volume e csv1)) =
          partition_of key (rows (ext_stock_df_volume e csv2))) as Hv.
  { by rewrite !ext_stock_df_volume_partition, Hco. }
  split; [exact Hv|].
  rewrite !ext_stock_df_partition, !ext_stock_df_high_partition,
    !ext_stock_df_low_partition, !ext_stock_df_close_partition.
  by rewrite Hv.
Qed.

Lemma partition_isolation_witness :
  let other := [quote "IBM" 17522 9; quote "GE" 17520 1] in
  company (Some "AAPL") aapl8 = company (Some "AAPL") (other ++ aapl8) ∧
  partition_of (Some "AAPL") (rows (ext_stock_df merge_engine aapl8)) =
    partition_of (Some "AAPL") (rows (ext_stock_df merge_engine (other ++ aapl8))).
Proof.
  intros other.
  assert (company (Some "AAPL") aapl8 = company (Some "AAPL") (other ++ aapl8)) as Hco
    by (vm_compute; reflexivity).
  split; [exact Hco|].
  apply (partition_isolation merge_engine aapl8 (other ++ aapl8) (Some "AAPL") Hco).
Defined.

(** ** Repeatability *)

Lemma partition_pass_NoDup e gs P :
  NoDup ((λ r, Date (base r)) <$> P) →
  NoDup ((λ r, Date (base r)) <$> partition_pass e gs P).
Proof.
  intros Hnd. unfold partition_pass.
  eapply sublist_NoDup; [|apply fmap_sublist, sublist_filter].
  rewrite (list_fmap_compose base Date), base_windowed, <- list_fmap_compose.
  by rewrite (order_perm e).
Qed.

Lemma partition_pass_engine e1 e2 gs P :
  NoDup ((λ r, Date (base r)) <$> P) → partition_pass e1 gs P = partition_pass e2 gs P.
Proof. intros Hnd. unfold partition_pass. by rewrite (order_unique e1 e2). Qed.

Lemma distinct_dates_stock_df csv :
  (∀ key, NoDup (Date <$> company key csv)) → distinct_dates (stock_df csv).
Proof.
  intros Hnd key. rewrite stock_df_partition, <- list_fmap_compose. apply Hnd.
Qed.

Lemma distinct_dates_lag_pass e gs df :
  distinct_dates df → distinct_dates (lag_pass e gs df).
Proof.
  intros Hnd key. rewrite lag_pass_partition. apply partition_pass_NoDup, Hnd.
Qed.

(** Isolation also holds across runs: when the rows of a company have
    pairwise distinct dates, its output rows are the same for any two
    engines and any rows of other companies. *)
Lemma isolation_across_engines e1 e2 csv1 csv2 key :
  company key csv1 = company key csv2 →
  NoDup (Date <$> company key csv1) →
  partition_of key (rows (ext_stock_df e1 csv1)) =
  partition_of key (rows (ext_stock_df e2 csv2)).
Proof.
  intros Hco Hnd.
  rewrite !ext_stock_df_partition, !ext_stock_df_high_partition,
    !ext_stock_df_low_partition, !ext_stock_df_close_partition,
    !ext_stock_df_volume_partition, <- Hco.
  assert (NoDup ((λ r, Date (base r)) <$> (raw <$> company key csv1))) as D0
    by (by rewrite <- list_fmap_compose).
  pose proof (partition_pass_NoDup e2 volume_lags _ D0) as D1.
  pose proof (partition_pass_NoDup e2 close_lag _ D1) as D2.
  pose proof (partition_pass_NoDup e2 low_lag _ D2) as D3.
  pose proof (partition_pass_NoDup e2 high_lag _ D3) as D4.
  rewrite (partition_pass_engine e1 e2 volume_lags) by done.
  rewrite (partition_pass_engine e1 e2 close_lag) by done.
  rewrite (partition_pass_engine e1 e2 low_lag) by done.
  rewrite (partition_pass_engine e1 e2 high_lag) by done.
  by rewrite (partition_pass_engine e1 e2 open_lag) by done.
Qed.

(** Without ties the engine has no say in a pass. *)
Lemma lag_pass_engine e1 e2 gs df :
  distinct_dates df → lag_pass e1 gs df = lag_pass e2 gs df.
Proof.
  intros Hnd. unfold lag_pass, select_lags. do 2 f_equal.
  apply flat_map_ext. intros key. by rewrite (order_unique e1 e2) by apply Hnd.
Qed.

(** C6.  [ext_stock_df] is a function of the input alone.  Two runs may
    meet engines that order tied rows differently ([e1], [e2]); when the
    timestamps of every company are strictly increasing (no two rows of a
    company carry the same [Date]), the two runs return the same frame,
    after the Volume pass and after the whole chain. *)
Theorem buildLags_repeatable e1 e2 csv :
  (∀ key, NoDup (Date <$> company key csv)) →
  ext_stock_df_volume e1 csv = ext_stock_df_volume e2 csv ∧
  ext_stock_df e1 csv = ext_stock_df e2 csv.
Proof.
  intros Hnd. apply distinct_dates_stock_df in Hnd.
  assert (ext_stock_df_volume e1 csv = ext_stock_df_volume e2 csv) as Hv.
  { by apply lag_pass_engine. }
  split; [exact Hv|].
  pose proof (distinct_dates_lag_pass e2 volume_lags _ Hnd) as D1.
  pose proof (distinct_dates_lag_pass e2 close_lag _ D1) as D2.
  pose proof (distinct_dates_lag_pass e2 low_lag _ D2) as D3.
  pose proof (distinct_dates_lag_pass e2 high_lag _ D3) as D4.
  unfold ext_stock_df, ext_stock_df_high, ext_stock_df_low, ext_stock_df_close.
  rewrite Hv. unfold ext_stock_df_volume.
  rewrite (lag_pass_engine e1 e2 close_lag) by done.
  rewrite (lag_pass_engine e1 e2 low_lag) by done.
  rewrite (lag_pass_engine e1 e2 high_lag) by done.
  by rewrite (lag_pass_engine e1 e2 open_lag) by done.
Qed.

Lemma company_NoDup key csv : NoDup (Date <$> csv) → NoDup (Date <$> company key csv).
Proof.
  intros Hnd. eapply sublist_NoDup; [exact Hnd|].
  apply fmap_sublist. unfold company. apply sublist_filter.
Qed.

Lemma buildLags_repeatable_witness :
  (∀ key, NoDup (Date <$> company key aapl8)) ∧
  ext_stock_df merge_engine aapl8 = ext_stock_df reverse_engine aapl8.
Proof.
  assert (∀ key, NoDup (Date <$> company key aapl8)) as Hnd.
  { intros key. apply company_NoDup. apply (bool_decide_unpack _). vm_compute. exact I. }
  split; [exact Hnd|].
  apply (buildLags_repeatable merge_engine reverse_engine aapl8 Hnd).
Defined.

(** With a tie the two engines of this file do return different frames:
    the hypothesis on the timestamps cannot be dropped. *)
Remark tie_breaks_repeatability :
  ext_stock_df_volume merge_engine aapl_tie ≠ ext_stock_df_volume reverse_engine aapl_tie.
Proof. vm_compute. congruence. Qed.

(** ** Predictors *)

Lemma ext_stock_hf_col_names e csv :
  col_names (ext_stock_hf e csv) =
  [ "Date"; "Open"; "High"; "Low"; "Close"; "Volume"; "Name";
    "Volume_lag1"; "Volume_lag2"; "Volume_lag3";
    "Close_lag1"; "Low_lag1"; "High_lag1"; "Open_lag1" ].
Proof. reflexivity. Qed.

(** C9.  The predictors are the column names of the H2O frame less
    Volume, Open, Close, High and Low, and nothing else is removed: Date,
    Name and the seven lag columns are predictors.  The list has no
    duplicates; its order is that of a set and is not fixed. *)
Theorem predictors_by_exclusion e csv :
  let hf := ext_stock_hf e csv in
  (∀ c, c ∈ predictors hf ↔
        c ∈ col_names hf ∧ c ∉ ["Volume"; "Open"; "Close"; "High"; "Low"]) ∧
  NoDup (predictors hf) ∧
  predictors hf ≡ₚ
    [ "Date"; "Name"; "Volume_lag1"; "Volume_lag2"; "Volume_lag3";
      "Close_lag1"; "Low_lag1"; "High_lag1"; "Open_lag1" ].
Proof.
  intros hf. split; [|split].
  - intros c. unfold predictors.
    by rewrite elem_of_elements, elem_of_difference, !elem_of_list_to_set.
  - unfold predictors. apply NoDup_elements.
  - unfold predictors, hf. rewrite ext_stock_hf_col_names.
    apply (bool_decide_unpack _). vm_compute. exact I.
Qed.

(** ** The split by date *)

Lemma ext_stock_df_dates e csv r :
  r ∈ frame_rows (ext_stock_hf e csv) → is_Some (Date (base r)).
Proof.
  unfold ext_stock_hf, as_h2o_frame, ext_stock_df, lag_pass. cbn [frame_rows].
  intros Hr. apply na_drop_complete in Hr.
  unfold complete, complete_stock in Hr. rewrite !andb_true_iff in Hr.
  destruct Hr as [[[[[[[Hd _] _] _] _] _] _] _]. by apply bool_decide_eq_true in Hd.
Qed.

Lemma mask_train boundary r :
  h2o_eq (h2o_of_bool (boundary <$> Date (base r))) 0 = Some true ↔
  boundary <$> Date (base r) = Some false.
Proof.
  unfold h2o_eq, h2o_of_bool. destruct (Date (base r)) as [t|]; cbn; [|done].
  destruct (boundary t); cbn; split; intros [=]; done.
Qed.

Lemma mask_test boundary r :
  h2o_eq (h2o_of_bool (boundary <$> Date (base r))) 1 = Some true ↔
  boundary <$> Date (base r) = Some true.
Proof.
  unfold h2o_eq, h2o_of_bool. destruct (Date (base r)) as [t|]; cbn; [|done].
  destruct (boundary t); cbn; split; intros [=]; done.
Qed.

Lemma split_rows boundary hf r :
  (r ∈ frame_rows (splitByTimeBoundary boundary hf).1 ↔
     r ∈ frame_rows hf ∧ boundary <$> Date (base r) = Some false) ∧
  (r ∈ frame_rows (splitByTimeBoundary boundary hf).2 ↔
     r ∈ frame_rows hf ∧ boundary <$> Date (base r) = Some true).
Proof.
  unfold splitByTimeBoundary, h2o_select. cbn [fst snd frame_rows].
  rewrite !list_elem_of_filter, mask_train, mask_test. tauto.
Qed.

Lemma split_permutation boundary l :
  Forall (λ r, is_Some (Date (base r))) l →
  filter (λ r, h2o_eq (h2o_of_bool (boundary <$> Date (base r))) 0 = Some true) l ++
  filter (λ r, h2o_eq (h2o_of_bool (boundary <$> Date (base r))) 1 = Some true) l ≡ₚ l.
Proof.
  induction 1 as [|r l [t Ht] _ IH]; [done|].
  destruct (boundary t) eqn:Hb.
  - rewrite filter_cons_False by (rewrite mask_train, Ht; cbn; congruence).
    rewrite (filter_cons_True (λ r, h2o_eq _ 1 = _))
      by (rewrite mask_test, Ht; cbn; congruence).
    by rewrite <- Permutation_middle, IH.
  - rewrite filter_cons_True by (rewrite mask_train, Ht; cbn; congruence).
    rewrite (filter_cons_False (λ r, h2o_eq _ 1 = _))
      by (rewrite mask_test, Ht; cbn; congruence).
    cbn. by rewrite IH.
Qed.

(** C4.  For every input, every engine and every date test [boundary],
    the split of the augmented frame gives a Training and an Evaluation
    part with the columns of the frame, no row in both, and every row of
    the frame in one of them (also counting repetitions: the two parts
    together are a permutation of the frame). *)
Theorem split_disjointness e csv boundary :
  let hf := ext_stock_hf e csv in
  let Training := (splitByTimeBoundary boundary hf).1 in
  let Evaluation := (splitByTimeBoundary boundary hf).2 in
  (∀ r, r ∈ frame_rows Training → r ∉ frame_rows Evaluation) ∧
  (∀ r, r ∈ frame_rows hf ↔ r ∈ frame_rows Training ∨ r ∈ frame_rows Evaluation) ∧
  frame_rows Training ++ frame_rows Evaluation ≡ₚ frame_rows hf ∧
  col_names Training = col_names hf ∧ col_names Evaluation = col_names hf.
Proof.
  intros hf Training Evaluation. unfold Training, Evaluation.
  split; [|split; [|split; [|done]]].
  - intros r HT HE.
    apply (split_rows boundary hf r) in HT as [_ HT].
    apply (split_rows boundary hf r) in HE as [_ HE]. congruence.
  - intros r. destruct (split_rows boundary hf r) as [-> ->]. split; [|tauto].
    intros Hr. destruct (ext_stock_df_dates e csv r Hr) as [t Ht].
    rewrite Ht. cbn. destruct (boundary t); auto.
  - apply split_permutation, Forall_forall. apply ext_stock_df_dates.
Qed.

Lemma is_test_last_day r : is_test r = last_day <$> Date (base r).
Proof.
  unfold is_test. destruct (Date (base r)) as [t|]; [|done].
  change (h2o_and (h2o_and (Some (bool_decide (year t = 2017)))
                           (Some (bool_decide (month t = 12))))
                  (Some (bool_decide (day t = 29))) = Some (last_day t)).
  unfold last_day.
  by destruct (bool_decide (year t = 2017)), (bool_decide (month t = 12)),
    (bool_decide (day t = 29)).
Qed.

(** [train] and [test] of the notebook are the split at the last day. *)
Lemma train_test_split e csv :
  (train e csv, test e csv) = splitByTimeBoundary last_day (ext_stock_hf e csv).
Proof.
  unfold train, test, splitByTimeBoundary, h2o_select. do 3 f_equal;
    apply list_filter_iff; intros r; by rewrite is_test_last_day.
Qed.

Lemma split_no_evaluation boundary hf :
  (∀ r, r ∈ frame_rows hf → boundary <$> Date (base r) = Some false) →
  splitByTimeBoundary boundary hf = (hf, {| col_names := col_names hf; frame_rows := [] |}).
Proof.
  intros Hnone. destruct hf as [cs l]. unfold splitByTimeBoundary, h2o_select.
  cbn [col_names frame_rows] in *. do 2 f_equal.
  - induction l as [|r l IH]; [done|].
    rewrite filter_cons_True by (rewrite mask_train; apply Hnone; left).
    f_equal. apply IH. intros r' Hr'. apply Hnone. by right.
  - induction l as [|r l IH]; [done|].
    rewrite filter_cons_False by (rewrite mask_test, (Hnone r) by left; congruence).
    apply IH. intros r' Hr'. apply Hnone. by right.
Qed.

(** C8.  A date test that is true of no row of the augmented frame: the
    split returns the whole frame as Training and, as Evaluation, a frame
    with the same columns and no rows.  The split is a total function,
    there is no error case. *)
Theorem empty_evaluation e csv boundary :
  let hf := ext_stock_hf e csv in
  (∀ r t, r ∈ frame_rows hf → Date (base r) = Some t → boundary t = false) →
  splitByTimeBoundary boundary hf = (hf, {| col_names := col_names hf; frame_rows := [] |}).
Proof.
  intros hf Hnone. apply split_no_evaluation. intros r Hr.
  destruct (ext_stock_df_dates e csv r Hr) as [t Ht].
  rewrite Ht. cbn. by rewrite (Hnone r t Hr Ht).
Qed.

Lemma empty_evaluation_witness :
  let hf := ext_stock_hf merge_engine aapl8 in
  let boundary t := bool_decide (year t = 2018) in
  length (frame_rows hf) = 1%nat ∧
  (∀ r t, r ∈ frame_rows hf → Date (base r) = Some t → boundary t = false) ∧
  (splitByTimeBoundary boundary hf).2 = {| col_names := col_names hf; frame_rows := [] |}.
Proof.
  intros hf boundary.
  assert (∀ r t, r ∈ frame_rows hf → Date (base r) = Some t → boundary t = false) as Hnone.
  { intros r t Hr. vm_compute in Hr.
    apply elem_of_cons in Hr as [->|Hr]; [|by apply not_elem_of_nil in Hr].
    intros [= <-]. vm_compute. reflexivity. }
  split; [vm_compute; reflexivity|]. split; [exact Hnone|].
  exact (f_equal snd (empty_evaluation merge_engine aapl8 boundary Hnone)).
Defined.

(** Ten days ending on 2017-12-29: three rows survive the five passes,
    the last one is the test data. *)
Example last_day_split :
  year (17529 * micros_per_day) = 2017 ∧
  month (17529 * micros_per_day) = 12 ∧
  day (17529 * micros_per_day) = 29 ∧
  (Date ∘ base) <$> frame_rows (train merge_engine aapl10) =
    [Some (17527 * micros_per_day); Some (17528 * micros_per_day)] ∧
  (Date ∘ base) <$> frame_rows (test merge_engine aapl10) =
    [Some (17529 * micros_per_day)].
Proof. vm_compute. repeat split; reflexivity. Qed.

(** * Further properties of the notebook's cells *)

(** ** A pass after a pass, on a partition without ties *)

Lemma Sorted_drop {A} (R : relation A) (l : list A) d : Sorted R l → Sorted R (drop d l).
Proof.
  revert l. induction d as [|d IH]; intros l Hs; [by rewrite drop_0|].
  destruct l as [|x l]; [done|]. cbn [drop]. apply IH. by apply Sorted_inv in Hs as [? _].
Qed.

Lemma HdRel_date_le_base x y l l' :
  base x = base y → base <$> l = base <$> l' → HdRel date_le x l → HdRel date_le y l'.
Proof.
  intros Hxy Hl Hhd. destruct l' as [|z l']; [constructor|].
  destruct l as [|z0 l]; [done|]. injection Hl as Hz _.
  apply HdRel_inv in Hhd. constructor. unfold date_le in *. by rewrite <- Hxy, <- Hz.
Qed.

(** The order by [Date] looks at the schema columns only. *)
Lemma Sorted_date_le_base l : ∀ l',
  base <$> l = base <$> l' → Sorted date_le l → Sorted date_le l'.
Proof.
  induction l as [|x l IH]; intros [|y l'] Hl Hs; try discriminate; [constructor..|].
  injection Hl as Hxy Hl. apply Sorted_inv in Hs as [Hs Hhd].
  constructor; [by apply IH | by eapply HdRel_date_le_base].
Qed.

Lemma base_drop_windowed gs P d :
  base <$> drop d (windowed gs P) = drop d (base <$> P).
Proof. by rewrite fmap_drop, base_windowed. Qed.

Lemma drop_windowed_sorted gs P d :
  Sorted date_le P → Sorted date_le (drop d (windowed gs P)).
Proof.
  intros Hs. apply Sorted_drop. apply (Sorted_date_le_base P); [|done].
  by rewrite base_windowed.
Qed.

Lemma drop_windowed_NoDup gs P d :
  NoDup ((λ r, Date (base r)) <$> P) →
  NoDup ((λ r, Date (base r)) <$> drop d (windowed gs P)).
Proof.
  intros Hnd. rewrite (list_fmap_compose base Date), base_drop_windowed.
  eapply sublist_NoDup; [|apply fmap_sublist, sublist_drop].
  by rewrite <- list_fmap_compose.
Qed.

Lemma drop_windowed_complete gs P d :
  Forall (λ r, complete r = true) P → (max_offset gs ≤ d)%nat →
  Forall (λ r, complete r = true) (drop d (windowed gs P)).
Proof.
  intros HP Hd. apply Forall_lookup. intros j w Hw.
  rewrite lookup_drop, windowed_lookup in Hw. apply fmap_Some in Hw as (p & Hp & ->).
  apply complete_extend. split.
  - rewrite Forall_forall in HP. apply HP. by eapply list_elem_of_lookup_2.
  - apply max_offset_le in Hd. eapply Forall_impl; [exact Hd|]. intros g Hg. cbv beta in Hg.
    apply (present_lag_at g P (d + j) HP (lookup_lt_Some _ _ _ Hp)). lia.
Qed.

(** Seen from a later row, the rows kept by earlier passes are the rows of
    the ordered partition, [d] places further. *)
Lemma lag_at_drop g gs P d j :
  (count g ≤ j)%nat →
  lag_at g (drop d (windowed gs P)) j = lag_at g P (d + j).
Proof.
  intros Hk. unfold lag_at. rewrite !decide_True by lia.
  rewrite lookup_drop, windowed_lookup.
  replace (d + (j - count g))%nat with (d + j - count g)%nat by lia.
  by destruct (P !! (d + j - count g)%nat).
Qed.

(** On a complete, ordered partition without ties, a pass over the rows
    that earlier passes left is the pass with all the lags over the whole
    partition, less the rows dropped so far and the new first rows. *)
Lemma partition_pass_tracks e gs gs' P d :
  Forall (λ r, complete r = true) P → Sorted date_le P →
  NoDup ((λ r, Date (base r)) <$> P) → (max_offset gs ≤ d)%nat →
  partition_pass e gs' (drop d (windowed gs P)) =
  drop (d + max_offset gs') (windowed (gs ++ gs') P).
Proof.
  intros HP Hs Hnd Hd.
  rewrite partition_pass_complete by by apply drop_windowed_complete.
  rewrite order_sorted_id
    by (by apply drop_windowed_NoDup || by apply drop_windowed_sorted).
  apply list_eq. intros j.
  rewrite !lookup_drop, !windowed_lookup, lookup_drop, windowed_lookup.
  replace (d + (max_offset gs' + j))%nat with (d + max_offset gs' + j)%nat by lia.
  destruct (P !! (d + max_offset gs' + j)%nat) as [p|]; [|done].
  cbn. f_equal. unfold extend. cbn [base lags]. f_equal.
  rewrite fmap_app, <- app_assoc. do 2 f_equal.
  apply list_fmap_ext. intros i g Hg.
  rewrite lag_at_drop; [f_equal; lia|].
  apply list_elem_of_lookup_2 in Hg.
  pose proof (proj1 (max_offset_le gs' (max_offset gs')) (Nat.le_refl _)) as Hall.
  rewrite Forall_forall in Hall. specialize (Hall g Hg). cbv beta in Hall. lia.
Qed.

(** The rows of a company without missing values and without ties, after
    each pass: the seven lags over the ordered partition, less the first
    rows. *)
Lemma chain_tracks e csv key :
  let P := order_by_date e (partition_of key (rows (stock_df csv))) in
  Forall (λ r, complete_stock r = true) (company key csv) →
  NoDup (Date <$> company key csv) →
  partition_of key (rows (ext_stock_df_volume e csv)) = drop 3 (windowed volume_lags P) ∧
  partition_of key (rows (ext_stock_df_close e csv)) =
    drop 4 (windowed (volume_lags ++ close_lag) P) ∧
  partition_of key (rows (ext_stock_df_low e csv)) =
    drop 5 (windowed ((volume_lags ++ close_lag) ++ low_lag) P) ∧
  partition_of key (rows (ext_stock_df_high e csv)) =
    drop 6 (windowed (((volume_lags ++ close_lag) ++ low_lag) ++ high_lag) P) ∧
  partition_of key (rows (ext_stock_df e csv)) = drop 7 (windowed all_lags P).
Proof.
  intros P Hc Hnd.
  assert (Forall (λ r, complete r = true) P) as HP.
  { unfold P. rewrite (order_perm e). by apply company_complete. }
  assert (Sorted date_le P) as Hs by apply order_sorted.
  assert (NoDup ((λ r, Date (base r)) <$> P)) as HndP.
  { unfold P. rewrite (order_perm e), stock_df_partition, <- list_fmap_compose. done. }
  assert (partition_of key (rows (ext_stock_df_volume e csv)) =
          drop 3 (windowed volume_lags P)) as H1.
  { unfold ext_stock_df_volume. rewrite lag_pass_partition.
    rewrite partition_pass_complete by by apply company_complete. done. }
  assert (partition_of key (rows (ext_stock_df_close e csv)) =
          drop 4 (windowed (volume_lags ++ close_lag) P)) as H2.
  { rewrite ext_stock_df_close_partition, H1.
    by rewrite (partition_pass_tracks e volume_lags close_lag P 3) by (done || cbn; lia). }
  assert (partition_of key (rows (ext_stock_df_low e csv)) =
          drop 5 (windowed ((volume_lags ++ close_lag) ++ low_lag) P)) as H3.
  { rewrite ext_stock_df_low_partition, H2.
    by rewrite (partition_pass_tracks e _ low_lag P 4) by (done || cbn; lia). }
  assert (partition_of key (rows (ext_stock_df_high e csv)) =
          drop 6 (windowed (((volume_lags ++ close_lag) ++ low_lag) ++ high_lag) P)) as H4.
  { rewrite ext_stock_df_high_partition, H3.
    by rewrite (partition_pass_tracks e _ high_lag P 5) by (done || cbn; lia). }
  repeat split; [done..|].
  rewrite ext_stock_df_partition, H4.
  by rewrite (partition_pass_tracks e _ open_lag P 6) by (done || cbn; lia).
Qed.

(** ** The rows of [ext_stock_df], named *)

Lemma lag_columns_ext_stock_df e csv :
  lag_columns (ext_stock_df e csv) = alias <$> all_lags.
Proof. reflexivity. Qed.

Lemma all_lags_value e csv P i p g :
  g ∈ all_lags → lags p = [] →
  lag_value (ext_stock_df e csv) (alias g) (extend all_lags P i p) = Some (lag_at g P i).
Proof.
  intros Hg Hraw. unfold lag_value, extend. cbn [lags]. rewrite Hraw.
  rewrite lag_columns_ext_stock_df.
  unfold all_lags, volume_lags, close_lag, low_lag, high_lag, open_lag in Hg.
  cbn [app] in Hg. rewrite !elem_of_cons in Hg.
  destruct Hg as [->|[->|[->|[->|[->|[->|[->|Hg]]]]]]]; [done..|].
  by apply not_elem_of_nil in Hg.
Qed.

(** X1.  A company whose rows have no missing value and pairwise distinct
    dates.  The [j]-th of its rows in [ext_stock_df] is the row of
    position [j + 7] of the ordered partition [P] of the input, and each of
    the seven lag columns [alias g] holds the source column of [g] at
    position [j + 7 - count g] of [P]: the three volumes before, and the
    close, low, high and open of the row before. *)
Theorem ext_stock_df_rows e csv key j w g :
  let P := order_by_date e (partition_of key (rows (stock_df csv))) in
  let out := ext_stock_df e csv in
  Forall (λ r, complete_stock r = true) (company key csv) →
  NoDup (Date <$> company key csv) →
  partition_of key (rows out) !! j = Some w →
  g ∈ all_lags →
  base <$> P !! (j + 7)%nat = Some (base w) ∧
  lag_value out (alias g) w =
    (λ q, col (source g) (base q)) <$> P !! (j + 7 - count g)%nat.
Proof.
  intros P out Hc Hnd Hw Hg.
  destruct (chain_tracks e csv key Hc Hnd) as (_ & _ & _ & _ & Hout).
  fold P in Hout. unfold out in *. rewrite Hout, lookup_drop, windowed_lookup in Hw.
  replace (7 + j)%nat with (j + 7)%nat in Hw by lia.
  apply fmap_Some in Hw as (p & Hp & ->).
  assert (lags p = []) as Hraw.
  { pose proof (ordered_raw e key csv) as Hr. rewrite Forall_forall in Hr.
    apply Hr. by eapply list_elem_of_lookup_2. }
  split; [by rewrite Hp|].
  rewrite all_lags_value by done.
  assert (count g ≤ j + 7)%nat as Hk.
  { unfold all_lags, volume_lags, close_lag, low_lag, high_lag, open_lag in Hg.
    cbn [app] in Hg. rewrite !elem_of_cons in Hg.
    destruct Hg as [->|[->|[->|[->|[->|[->|[->|Hg]]]]]]]; cbn; try lia.
    by apply not_elem_of_nil in Hg. }
  destruct (lag_at_reaches g P (j + 7) Hk) as [->|Hn]; [done | congruence].
Qed.

Lemma complete_company_sample (csv : list StockRow) key :
  forallb complete_stock (company key csv) = true →
  Forall (λ r, complete_stock r = true) (company key csv).
Proof. intros H. apply Forall_forall. intros r Hr. rewrite forallb_forall in H. apply H. by apply list_elem_of_In. Qed.

Lemma ext_stock_df_rows_witness :
  let P := order_by_date merge_engine (partition_of (Some "AAPL") (rows (stock_df aapl10))) in
  let out := ext_stock_df merge_engine aapl10 in
  let g := {| source := CloseCol; count := 1; alias := "Close_lag1" |} in
  ∃ w, partition_of (Some "AAPL") (rows out) !! 1%nat = Some w ∧
       base w = quote "AAPL" 17528 900 ∧
       lag_value out "Close_lag1" w = Some (Close (quote "AAPL" 17527 800)) ∧
       lag_value out "Volume_lag3" w = Some (Some (dbl 600)).
Proof.
  intros P out g.
  assert (Forall (λ r, complete_stock r = true) (company (Some "AAPL") aapl10)) as Hc.
  { apply complete_company_sample. vm_compute. reflexivity. }
  assert (NoDup (Date <$> company (Some "AAPL") aapl10)) as Hnd.
  { apply (bool_decide_unpack _). vm_compute. exact I. }
  destruct (partition_of (Some "AAPL") (rows out) !! 1%nat) as [w|] eqn:Hw;
    [|vm_compute in Hw; discriminate].
  exists w.
  destruct (ext_stock_df_rows merge_engine aapl10 (Some "AAPL") 1 w g Hc Hnd Hw) as [Hb Hv].
  { right; right; right; left. }
  destruct (ext_stock_df_rows merge_engine aapl10 (Some "AAPL") 1 w
              {| source := VolumeCol; count := 3; alias := "Volume_lag3" |} Hc Hnd Hw)
    as [_ Hv3].
  { right; right; left. }
  split; [reflexivity|]. split; [|split].
  - assert (base <$> P !! 8%nat = Some (quote "AAPL" 17528 900)) as HP
      by (vm_compute; reflexivity).
    change (base <$> P !! 8%nat = Some (base w)) in Hb. congruence.
  - etransitivity; [exact Hv|]. vm_compute. reflexivity.
  - etransitivity; [exact Hv3|]. vm_compute. reflexivity.
Defined.

(** ** One select with seven lags, or five passes *)

(** X2.  For a company without missing values and without ties, the five
    chained passes compute the lag values of a single pass with all seven
    lags, and lose four more rows: the rows of the company in
    [ext_stock_df] are those of the single pass less its first four. *)
Theorem chain_against_single_pass e csv key :
  Forall (λ r, complete_stock r = true) (company key csv) →
  NoDup (Date <$> company key csv) →
  lag_columns (ext_stock_df e csv) = lag_columns (ext_stock_df_single e csv) ∧
  partition_of key (rows (ext_stock_df e csv)) =
    drop 4 (partition_of key (rows (ext_stock_df_single e csv))) ∧
  length (partition_of key (rows (ext_stock_df_single e csv))) =
    (length (company key csv) - 3)%nat.
Proof.
  intros Hc Hnd. split; [reflexivity|].
  destruct (chain_tracks e csv key Hc Hnd) as (_ & _ & _ & _ & Hout).
  assert (partition_of key (rows (ext_stock_df_single e csv)) =
          drop 3 (windowed all_lags
                    (order_by_date e (partition_of key (rows (stock_df csv)))))) as Hs.
  { unfold ext_stock_df_single. rewrite lag_pass_partition.
    by rewrite partition_pass_complete by by apply company_complete. }
  split.
  - by rewrite Hout, Hs, drop_drop.
  - rewrite Hs, length_drop, length_windowed, (order_perm e).
    by rewrite length_stock_df_partition.
Qed.

Lemma chain_against_single_pass_witness :
  Forall (λ r, complete_stock r = true) (company (Some "AAPL") aapl10) ∧
  NoDup (Date <$> company (Some "AAPL") aapl10) ∧
  length (partition_of (Some "AAPL") (rows (ext_stock_df_single merge_engine aapl10))) = 7%nat ∧
  length (partition_of (Some "AAPL") (rows (ext_stock_df merge_engine aapl10))) = 3%nat.
Proof.
  assert (Forall (λ r, complete_stock r = true) (company (Some "AAPL") aapl10)) as Hc.
  { apply complete_company_sample. vm_compute. reflexivity. }
  assert (NoDup (Date <$> company (Some "AAPL") aapl10)) as Hnd.
  { apply (bool_decide_unpack _). vm_compute. exact I. }
  split; [exact Hc|]. split; [exact Hnd|].
  destruct (chain_against_single_pass merge_engine aapl10 (Some "AAPL") Hc Hnd)
    as (_ & -> & Hlen).
  split; [exact Hlen|]. rewrite length_drop, Hlen. reflexivity.
Defined.

(** ** [select] keeps every row *)

Lemma filter_keys_nil (l : list ExtRow) : filter (λ r, Name (base r) ∈ @nil (option string)) l = [].
Proof.
  induction l as [|r l IH]; [done|].
  by rewrite filter_cons_False by apply not_elem_of_nil.
Qed.

Lemma partition_of_split k ks (l : list ExtRow) :
  k ∉ ks →
  partition_of k l ++ filter (λ r, Name (base r) ∈ ks) l ≡ₚ
  filter (λ r, Name (base r) ∈ k :: ks) l.
Proof.
  intros Hk. unfold partition_of. induction l as [|r l IH]; [done|].
  destruct (decide (Name (base r) = k)) as [Hr|Hr].
  - rewrite (filter_cons_True (λ r, Name (base r) = k)) by done.
    rewrite (filter_cons_False (λ r, Name (base r) ∈ ks)) by (by rewrite Hr).
    rewrite (filter_cons_True (λ r, Name (base r) ∈ k :: ks)) by (rewrite Hr; left).
    cbn [app]. by rewrite IH.
  - rewrite (filter_cons_False (λ r, Name (base r) = k)) by done.
    destruct (decide (Name (base r) ∈ ks)) as [Hin|Hin].
    + rewrite (filter_cons_True (λ r, Name (base r) ∈ ks)) by done.
      rewrite (filter_cons_True (λ r, Name (base r) ∈ k :: ks)) by (by right).
      by rewrite <- Permutation_middle, IH.
    + rewrite (filter_cons_False (λ r, Name (base r) ∈ ks)) by done.
      rewrite (filter_cons_False (λ r, Name (base r) ∈ k :: ks)); [done|].
      rewrite elem_of_cons. intros [?|?]; done.
Qed.

Lemma groups_filter (l : list ExtRow) ks :
  NoDup ks →
  flat_map (λ k, partition_of k l) ks ≡ₚ filter (λ r, Name (base r) ∈ ks) l.
Proof.
  induction 1 as [|k ks Hk _ IH]; cbn [flat_map].
  - by rewrite filter_keys_nil.
  - by rewrite IH, partition_of_split.
Qed.

(** Grouping by company only reorders the rows. *)
Lemma groups_permutation (l : list ExtRow) : flat_map (λ k, partition_of k l) (keys l) ≡ₚ l.
Proof.
  rewrite groups_filter by apply NoDup_remove_dups.
  assert (filter (λ r, Name (base r) ∈ keys l) l = l) as ->; [|done].
  assert (∀ l0 : list ExtRow, Forall (λ r, Name (base r) ∈ keys l) l0 →
            filter (λ r, Name (base r) ∈ keys l) l0 = l0) as Hall.
  { induction 1 as [|r l0 Hr _ IH]; [done|]. by rewrite filter_cons_True, IH by done. }
  apply Hall, Forall_forall. intros r Hr. unfold keys.
  rewrite elem_of_remove_dups. by apply (list_elem_of_fmap_2 (λ r, Name (base r))).
Qed.

Lemma cut_windowed gs P n :
  Forall (λ r, length (lags r) = n) P → cut n <$> windowed gs P = P.
Proof.
  intros HP. apply list_eq. intros i.
  rewrite list_lookup_fmap, windowed_lookup.
  destruct (P !! i) as [p|] eqn:Hp; [|done]. cbn. f_equal.
  rewrite Forall_forall in HP. specialize (HP p (list_elem_of_lookup_2 _ _ _ Hp)).
  unfold cut, extend. cbn [base lags]. rewrite take_app_length' by done. by destruct p.
Qed.

Lemma windowed_lags_length gs P n :
  Forall (λ r, length (lags r) = n) P →
  Forall (λ r, length (lags r) = (n + length gs)%nat) (windowed gs P).
Proof.
  intros HP. apply Forall_lookup. intros i w Hw.
  rewrite windowed_lookup in Hw. apply fmap_Some in Hw as (p & Hp & ->).
  rewrite Forall_forall in HP. specialize (HP p (list_elem_of_lookup_2 _ _ _ Hp)).
  unfold extend. cbn [lags]. by rewrite length_app, length_fmap, HP.
Qed.

Lemma ordered_partition_lags e key l n :
  Forall (λ r, length (lags r) = n) l →
  Forall (λ r, length (lags r) = n) (order_by_date e (partition_of key l)).
Proof.
  intros Hl. rewrite (order_perm e). unfold partition_of.
  apply Forall_forall. intros r Hr. apply list_elem_of_filter in Hr as [_ Hr].
  rewrite Forall_forall in Hl. by apply Hl.
Qed.

Lemma cut_select_rows e gs l n ks :
  Forall (λ r, length (lags r) = n) l →
  cut n <$> flat_map (λ k, windowed gs (order_by_date e (partition_of k l))) ks ≡ₚ
  flat_map (λ k, partition_of k l) ks.
Proof.
  intros Hl. induction ks as [|k ks IH]; [done|]. cbn [flat_map].
  rewrite fmap_app, IH, cut_windowed by by apply ordered_partition_lags.
  by rewrite (order_perm e).
Qed.

Lemma base_select_rows e gs l ks :
  base <$> flat_map (λ k, windowed gs (order_by_date e (partition_of k l))) ks ≡ₚ
  base <$> flat_map (λ k, partition_of k l) ks.
Proof.
  induction ks as [|k ks IH]; [done|]. cbn [flat_map].
  by rewrite !fmap_app, IH, base_windowed, (order_perm e).
Qed.

Lemma base_select_lags e gs df : base <$> rows (select_lags e gs df) ≡ₚ base <$> rows df.
Proof.
  unfold select_lags. cbn [rows]. by rewrite base_select_rows, groups_permutation.
Qed.

Lemma aligned_select_lags e gs df : aligned df → aligned (select_lags e gs df).
Proof.
  unfold aligned, select_lags. cbn [rows lag_columns]. intros Hdf.
  rewrite length_app, length_fmap.
  generalize (keys (rows df)). intros ks. induction ks as [|k ks IH]; [constructor|].
  cbn [flat_map]. apply Forall_app. split; [|done].
  by apply windowed_lags_length, ordered_partition_lags.
Qed.

(** X5.  [df.select("*", lags..)] over the window, on a frame whose rows
    have one cell per lag column: the result has the same rows, each with
    one more cell per lag and its earlier cells unchanged, in some order.
    Cut back to the columns of [df], its rows are a permutation of the rows
    of [df]: [select] neither drops, nor repeats, nor alters a row. *)
Theorem select_keeps_rows e gs df :
  aligned df →
  cut (length (lag_columns df)) <$> rows (select_lags e gs df) ≡ₚ rows df ∧
  aligned (select_lags e gs df) ∧
  length (lag_columns (select_lags e gs df)) = (length (lag_columns df) + length gs)%nat.
Proof.
  intros Hdf. split; [|split].
  - unfold select_lags. cbn [rows]. by rewrite cut_select_rows, groups_permutation.
  - by apply aligned_select_lags.
  - cbn. by rewrite length_app, length_fmap.
Qed.

Lemma select_keeps_rows_witness :
  let df := ext_stock_df_volume merge_engine aapl10 in
  aligned df ∧
  length (rows (select_lags merge_engine close_lag df)) = length (rows df).
Proof.
  intros df.
  assert (aligned df) as Hdf.
  { unfold aligned. apply Forall_forall. intros r Hr. vm_compute in Hr.
    repeat (apply elem_of_cons in Hr as [->|Hr]; [reflexivity|]).
    by apply not_elem_of_nil in Hr. }
  split; [exact Hdf|].
  destruct (select_keeps_rows merge_engine close_lag df Hdf) as [Hperm _].
  by rewrite <- (Permutation_length Hperm), length_fmap.
Defined.

(** ** What every row of [ext_stock_df] satisfies *)

Lemma base_lag_pass e gs df : base <$> rows (lag_pass e gs df) ⊆+ base <$> rows df.
Proof.
  rewrite <- (base_select_lags e gs df). unfold lag_pass, na_drop. cbn [rows].
  apply fmap_submseteq, sublist_submseteq, sublist_filter.
Qed.

Lemma aligned_lag_pass e gs df : aligned df → aligned (lag_pass e gs df).
Proof.
  intros Hdf. apply (aligned_select_lags e gs) in Hdf.
  unfold aligned, lag_pass, na_drop in *. cbn [rows lag_columns] in *.
  apply Forall_forall. intros r Hr. apply list_elem_of_filter in Hr as [_ Hr].
  rewrite Forall_forall in Hdf. by apply Hdf.
Qed.

Lemma aligned_stock_df csv : aligned (stock_df csv).
Proof. unfold aligned, stock_df. cbn. apply Forall_fmap, Forall_true. done. Qed.

(** X4.  Whatever the input and the engine: the rows of [ext_stock_df],
    looked at in their seven schema columns, are rows of the input, none
    more often than in the input; every one of them has exactly seven lag
    cells, one per lag column, and no missing value in any of its fourteen
    columns. *)
Theorem ext_stock_df_invariant e csv :
  base <$> rows (ext_stock_df e csv) ⊆+ csv ∧
  Forall (λ w, complete w = true ∧ length (lags w) = 7%nat) (rows (ext_stock_df e csv)) ∧
  length (columns (ext_stock_df e csv)) = 14%nat.
Proof.
  split; [|split; [|reflexivity]].
  - unfold ext_stock_df, ext_stock_df_high, ext_stock_df_low, ext_stock_df_close,
      ext_stock_df_volume.
    do 5 (etrans; [apply base_lag_pass|]).
    unfold stock_df. cbn [rows]. rewrite <- list_fmap_compose.
    by rewrite (list_fmap_ext (base ∘ raw) id csv), list_fmap_id by done.
  - assert (aligned (ext_stock_df e csv)) as Ha.
    { do 5 apply aligned_lag_pass. apply aligned_stock_df. }
    unfold aligned in Ha. rewrite Forall_forall in Ha.
    apply Forall_forall. intros w Hw. split; [by eapply na_drop_complete | by apply Ha].
Qed.

(** ** Companies with few rows *)

Lemma lag_pass_count_le e gs df key :
  (length (partition_of key (rows (lag_pass e gs df))) ≤
   length (partition_of key (rows df)) - max_offset gs)%nat.
Proof. rewrite lag_pass_partition. apply length_partition_pass_le. Qed.

Lemma all_partitions_empty (l : list ExtRow) : (∀ key, partition_of key l = []) → l = [].
Proof.
  intros Hl. destruct l as [|r l]; [done|].
  specialize (Hl (Name (base r))). unfold partition_of in Hl.
  by rewrite filter_cons_True in Hl by done.
Qed.

(** X3.  Whatever the input (missing values or not) and the engine, a
    company with [n] rows in the file has at most [n - 7] rows in
    [ext_stock_df].  When no company has more than seven rows - an empty
    file, say - [ext_stock_df] has no rows at all, and the H2O frame made
    from it still has its fourteen columns. *)
Theorem short_companies_vanish e csv :
  (∀ key, (length (partition_of key (rows (ext_stock_df e csv))) ≤
           length (company key csv) - 7)%nat) ∧
  ((∀ key, (length (company key csv) ≤ 7)%nat) →
   rows (ext_stock_df e csv) = [] ∧ length (col_names (ext_stock_hf e csv)) = 14%nat).
Proof.
  assert (∀ key, (length (partition_of key (rows (ext_stock_df e csv))) ≤
                  length (company key csv) - 7)%nat) as Hle.
  { intros key.
    pose proof (lag_pass_count_le e volume_lags (stock_df csv) key) as L1.
    pose proof (lag_pass_count_le e close_lag (ext_stock_df_volume e csv) key) as L2.
    pose proof (lag_pass_count_le e low_lag (ext_stock_df_close e csv) key) as L3.
    pose proof (lag_pass_count_le e high_lag (ext_stock_df_low e csv) key) as L4.
    pose proof (lag_pass_count_le e open_lag (ext_stock_df_high e csv) key) as L5.
    rewrite length_stock_df_partition in L1.
    change (max_offset volume_lags) with 3%nat in L1.
    change (max_offset close_lag) with 1%nat in L2.
    change (max_offset low_lag) with 1%nat in L3.
    change (max_offset high_lag) with 1%nat in L4.
    change (max_offset open_lag) with 1%nat in L5.
    fold (ext_stock_df_volume e csv) in *. fold (ext_stock_df_close e csv) in *.
    fold (ext_stock_df_low e csv) in *. fold (ext_stock_df_high e csv) in *.
    fold (ext_stock_df e csv) in *. lia. }
  split; [exact Hle|]. intros Hshort. split; [|reflexivity].
  apply all_partitions_empty. intros key. apply nil_length_inv.
  specialize (Hle key). specialize (Hshort key). lia.
Qed.

Lemma short_companies_vanish_witness :
  (∀ key, (length (company key aapl5) ≤ 7)%nat) ∧ rows (ext_stock_df merge_engine aapl5) = [].
Proof.
  assert (∀ key, (length (company key aapl5) ≤ 7)%nat) as Hshort.
  { intros key. unfold company. etrans; [apply length_filter|]. reflexivity. }
  split; [exact Hshort|].
  by destruct (short_companies_vanish merge_engine aapl5) as [_ [-> _]].
Defined.

(** ** The order of the rows in the file *)

(** X8.  Two files with the same rows in different orders, read by any
    two engines: when the rows of a company have pairwise distinct dates,
    the company has the same rows, in the same order, in both
    [ext_stock_df]. *)
Theorem row_order_irrelevant e1 e2 csv1 csv2 key :
  csv1 ≡ₚ csv2 →
  NoDup (Date <$> company key csv1) →
  partition_of key (rows (ext_stock_df e1 csv1)) =
  partition_of key (rows (ext_stock_df e2 csv2)).
Proof.
  intros Hperm Hnd.
  assert (company key csv1 ≡ₚ company key csv2) as Hco by (unfold company; by rewrite Hperm).
  assert (NoDup ((λ r, Date (base r)) <$> (raw <$> company key csv1))) as D0
    by (by rewrite <- list_fmap_compose).
  assert (partition_pass e1 volume_lags (raw <$> company key csv1) =
          partition_pass e2 volume_lags (raw <$> company key csv2)) as H1.
  { unfold partition_pass. do 2 f_equal.
    apply (ordered_unique (raw <$> company key csv1)); auto using order_perm, order_sorted.
    by rewrite (order_perm e2), Hco. }
  rewrite !ext_stock_df_partition, !ext_stock_df_high_partition,
    !ext_stock_df_low_partition, !ext_stock_df_close_partition,
    !ext_stock_df_volume_partition, <- H1.
  pose proof (partition_pass_NoDup e1 volume_lags _ D0) as D1.
  pose proof (partition_pass_NoDup e2 close_lag _ D1) as D2.
  pose proof (partition_pass_NoDup e2 low_lag _ D2) as D3.
  pose proof (partition_pass_NoDup e2 high_lag _ D3) as D4.
  rewrite (partition_pass_engine e1 e2 close_lag) by done.
  rewrite (partition_pass_engine e1 e2 low_lag) by done.
  rewrite (partition_pass_engine e1 e2 high_lag) by done.
  by rewrite (partition_pass_engine e1 e2 open_lag) by done.
Qed.

Lemma row_order_irrelevant_witness :
  aapl10 ≡ₚ reverse aapl10 ∧
  NoDup (Date <$> company (Some "AAPL") aapl10) ∧
  partition_of (Some "AAPL") (rows (ext_stock_df merge_engine aapl10)) =
  partition_of (Some "AAPL") (rows (ext_stock_df reverse_engine (reverse aapl10))).
Proof.
  assert (aapl10 ≡ₚ reverse aapl10) as Hperm by (by rewrite reverse_Permutation).
  assert (NoDup (Date <$> company (Some "AAPL") aapl10)) as Hnd.
  { apply (bool_decide_unpack _). vm_compute. exact I. }
  split; [exact Hperm|]. split; [exact Hnd|].
  exact (row_order_irrelevant merge_engine reverse_engine aapl10 (reverse aapl10)
           (Some "AAPL") Hperm Hnd).
Defined.

(** ** Any pass, by column name *)

Lemma list_find_NoDup (l : list string) i a :
  NoDup l → l !! i = Some a → list_find (λ n, n = a) l = Some (i, a).
Proof.
  intros Hnd Hi. apply list_find_Some. split; [done|]. split; [done|].
  intros j y Hj Hlt ->. pose proof (NoDup_lookup _ _ _ _ Hnd Hi Hj). lia.
Qed.

Lemma lag_value_lookup df c w i :
  NoDup (lag_columns df) → lag_columns df !! i = Some c → lag_value df c w = lags w !! i.
Proof. intros Hnd Hi. unfold lag_value. by rewrite (list_find_NoDup _ i c). Qed.

Lemma ordered_partition_rows e key l p i :
  order_by_date e (partition_of key l) !! i = Some p → p ∈ l.
Proof.
  intros Hp. apply list_elem_of_lookup_2 in Hp. rewrite (order_perm e) in Hp.
  unfold partition_of in Hp. by apply list_elem_of_filter in Hp as [_ ?].
Qed.

Lemma pass_columns e gs df key i w g :
  let P := order_by_date e (partition_of key (rows df)) in
  let out := lag_pass e gs df in
  aligned df →
  NoDup (lag_columns df ++ (alias <$> gs)) →
  windowed gs P !! i = Some w →
  g ∈ gs →
  (∃ p, P !! i = Some p ∧ p ∈ rows df ∧ base w = base p ∧
        ∀ c, c ∈ lag_columns df → lag_value out c w = lag_value df c p) ∧
  ((count g ≤ i)%nat →
     lag_value out (alias g) w =
       (λ q, col (source g) (base q)) <$> P !! (i - count g)%nat) ∧
  ((i < count g)%nat → w ∉ rows out).
Proof.
  intros P out Ha Hnd Hw Hg.
  rewrite windowed_lookup in Hw. apply fmap_Some in Hw as (p & Hp & ->).
  pose proof (ordered_partition_rows e key _ p i Hp) as Hin.
  assert (length (lags p) = length (lag_columns df)) as Hlen.
  { unfold aligned in Ha. rewrite Forall_forall in Ha. by apply Ha. }
  assert (lag_columns out = lag_columns df ++ (alias <$> gs)) as Hcols by reflexivity.
  split; [|split].
  - exists p. repeat split; [done..|]. intros c Hc.
    apply list_elem_of_lookup in Hc as [k Hk].
    rewrite (lag_value_lookup out c _ k);
      [|by rewrite Hcols|by rewrite Hcols, lookup_app_l by by eapply lookup_lt_Some].
    rewrite (lag_value_lookup df c _ k); [|by apply NoDup_app in Hnd as [? _]|done].
    unfold extend. cbn [lags]. apply lookup_app_l. rewrite Hlen. by eapply lookup_lt_Some.
  - intros Hk. apply list_elem_of_lookup in Hg as [k Hgk].
    rewrite (lag_value_lookup out (alias g) _ (length (lag_columns df) + k)%nat);
      [|by rewrite Hcols|].
    + unfold extend. cbn [lags]. rewrite lookup_app_r by lia.
      replace (length (lag_columns df) + k - length (lags p))%nat with k by lia.
      rewrite list_lookup_fmap, Hgk. cbn.
      destruct (lag_at_reaches g P i Hk) as [->|Hn]; [done | congruence].
    + rewrite Hcols, lookup_app_r by lia.
      replace (length (lag_columns df) + k - length (lag_columns df))%nat with k by lia.
      by rewrite list_lookup_fmap, Hgk.
  - intros Hk Hout. apply na_drop_complete in Hout.
    rewrite (missing_lag_incomplete gs P i p g) in Hout; [done..|].
    unfold lag_at. by rewrite decide_False by lia.
Qed.

(** X6.  Any pass [out = df.select("*", lags..).na.drop()] on a frame
    with one cell per lag column, the column names of the result being
    pairwise distinct.  Let [w] be the row built at position [i] of a
    company's ordered partition [P] of [df], the frame the pass receives.
    Then [w] is the row [P !! i] of [df] with its columns unchanged; the
    new column [alias g] holds the source column of [g] at position
    [i - count g] of [P], the rows that earlier passes dropped not being
    counted; the rows of the company in [out] are exactly the built rows
    that [na.drop()] keeps, in window order, each built at a position that
    every lag of the pass reaches; and [w] is not among them when
    [i < count g]. *)
Theorem pass_by_name e gs df key i w g :
  let P := order_by_date e (partition_of key (rows df)) in
  let out := lag_pass e gs df in
  aligned df →
  NoDup (lag_columns df ++ (alias <$> gs)) →
  windowed gs P !! i = Some w →
  g ∈ gs →
  (∃ p, P !! i = Some p ∧ p ∈ rows df ∧ base w = base p ∧
        ∀ c, c ∈ lag_columns df → lag_value out c w = lag_value df c p) ∧
  ((count g ≤ i)%nat →
     lag_value out (alias g) w =
       (λ q, col (source g) (base q)) <$> P !! (i - count g)%nat) ∧
  ((i < count g)%nat → w ∉ rows out) ∧
  partition_of key (rows out) = filter (λ r, complete r = true) (windowed gs P) ∧
  (∀ r, r ∈ partition_of key (rows out) →
     ∃ i', windowed gs P !! i' = Some r ∧ (max_offset gs ≤ i')%nat ∧
           ((i < count g)%nat → i' ≠ i)).
Proof.
  intros P out Ha Hnd Hw Hg.
  destruct (pass_columns e gs df key i w g Ha Hnd Hw Hg) as (H1 & H2 & H3).
  assert (partition_of key (rows out) =
          filter (λ r, complete r = true) (windowed gs P)) as Hout.
  { unfold out. by rewrite lag_pass_partition. }
  repeat split; [done..|].
  intros r Hr. rewrite Hout in Hr. apply list_elem_of_filter in Hr as [Hc Hr].
  apply list_elem_of_lookup in Hr as [i' Hi']. exists i'. split; [done|].
  pose proof Hi' as Hi''. rewrite windowed_lookup in Hi''.
  apply fmap_Some in Hi'' as (p' & Hp' & ->).
  apply complete_extend in Hc as [_ Hgs].
  assert (Forall (λ g', (count g' ≤ i')%nat) gs) as Hall.
  { eapply Forall_impl; [exact Hgs|]. intros g' Hg'. cbv beta in Hg'.
    apply Nat.nlt_ge. intros Hlt. unfold lag_at in Hg'.
    by rewrite decide_False in Hg' by lia. }
  split; [by apply max_offset_le|].
  intros Hk ->. rewrite Forall_forall in Hall. specialize (Hall g Hg). cbv beta in Hall. lia.
Qed.

(** The open of the fifth day of [aapl_hole] is unknown, so the Volume pass
    drops that day.  In the Close pass the sixth day follows the fourth:
    its [Close_lag1] is the close of two days before (53), next to a
    [Volume_lag1] that is the volume of the day before (500). *)
Lemma pass_by_name_witness :
  let df := ext_stock_df_volume merge_engine aapl_hole in
  let P := order_by_date merge_engine (partition_of (Some "AAPL") (rows df)) in
  let out := lag_pass merge_engine close_lag df in
  ∃ w, windowed close_lag P !! 1%nat = Some w ∧
       Date (base w) = Some (17525 * micros_per_day) ∧
       lag_value out "Close_lag1" w = Some (Some (dbl 53)) ∧
       lag_value out "Volume_lag1" w = Some (Some (dbl 500)).
Proof.
  intros df P out.
  assert (aligned df) as Ha by (unfold df; apply aligned_lag_pass, aligned_stock_df).
  assert (NoDup (lag_columns df ++ (alias <$> close_lag))) as Hnd.
  { apply (bool_decide_unpack _). vm_compute. exact I. }
  destruct (windowed close_lag P !! 1%nat) as [w|] eqn:Hw; [|vm_compute in Hw; discriminate].
  exists w.
  destruct (pass_by_name merge_engine close_lag df (Some "AAPL") 1 w
              {| source := CloseCol; count := 1; alias := "Close_lag1" |} Ha Hnd Hw)
    as ((p & Hp & _ & Hb & Hold) & Hv & _); [left|].
  assert (P !! 1%nat = Some {| base := base p; lags := lags p |}) as Hp' by (by destruct p).
  assert (p = {| base :=
                   {| Date := Some (17525 * micros_per_day);
                      Open := Some (dbl 10); High := Some (dbl 12); Low := Some (dbl 9);
                      Close := Some (dbl 55); Volume := Some (dbl 600);
                      Name := Some "AAPL" |};
                 lags := [Some (dbl 500); Some (dbl 400); Some (dbl 300)] |}) as Hpv.
  { apply (inj Some). rewrite <- Hp. vm_compute. reflexivity. }
  split; [reflexivity|]. split; [by rewrite Hb, Hpv|]. split.
  - etransitivity; [apply Hv; cbn; lia|]. vm_compute. reflexivity.
  - etransitivity; [apply (Hold "Volume_lag1"); left|]. rewrite Hpv. reflexivity.
Defined.

(** ** The test data are the rows of 29 December 2017 *)

Lemma civil_last_day d : civil_from_days d = (2017, 12, 29) ↔ d = 17529.
Proof.
  split; [|intros ->; vm_compute; reflexivity].
  unfold civil_from_days. cbv zeta. intros [= Hy Hm Hd].
  repeat match goal with
  | H : context [if ?b then _ else _] |- _ => destruct b eqn:?
  end;
  rewrite ?Z.ltb_lt, ?Z.ltb_ge, ?Z.leb_le, ?Z.leb_gt in *;
  Z.to_euclidean_division_equations; lia.
Qed.

Lemma last_day_interval t :
  last_day t = true ↔ 17529 * micros_per_day ≤ t < 17530 * micros_per_day.
Proof.
  unfold last_day, year, month, day.
  rewrite !andb_true_iff, !bool_decide_eq_true.
  pose proof (civil_last_day (t / micros_per_day)) as Hc.
  destruct (civil_from_days (t / micros_per_day)) as [[y m] d]. cbn [fst snd].
  assert (t / micros_per_day = 17529 ↔
          17529 * micros_per_day ≤ t < 17530 * micros_per_day) as <-.
  { unfold micros_per_day. Z.to_euclidean_division_equations. lia. }
  rewrite <- Hc. split; [intros [[-> ->] ->]; done | intros [= -> -> ->]; done].
Qed.

(** X7.  Timestamps read in UTC.  [test] holds the rows of the augmented
    frame whose [Date] falls on 29 December 2017, from 00:00:00 on and
    before the next midnight; [train] holds the rows of every other date;
    the two keep the order of the frame and together are all its rows. *)
Theorem test_is_last_day e csv :
  let hf := ext_stock_hf e csv in
  let on_last_day r :=
    ∃ t, Date (base r) = Some t ∧ 17529 * micros_per_day ≤ t < 17530 * micros_per_day in
  (∀ r, r ∈ frame_rows (test e csv) ↔ r ∈ frame_rows hf ∧ on_last_day r) ∧
  (∀ r, r ∈ frame_rows (train e csv) ↔ r ∈ frame_rows hf ∧ ¬ on_last_day r) ∧
  frame_rows (train e csv) `sublist_of` frame_rows hf ∧
  frame_rows (test e csv) `sublist_of` frame_rows hf ∧
  frame_rows (train e csv) ++ frame_rows (test e csv) ≡ₚ frame_rows hf.
Proof.
  intros hf on_last_day. unfold on_last_day. clear on_last_day.
  pose proof (train_test_split e csv) as Hsplit. fold hf in Hsplit.
  assert (train e csv = (splitByTimeBoundary last_day hf).1) as Htrain by (by rewrite <- Hsplit).
  assert (test e csv = (splitByTimeBoundary last_day hf).2) as Htest by (by rewrite <- Hsplit).
  split; [|split; [|split; [|split]]].
  - intros r. rewrite Htest. destruct (split_rows last_day hf r) as [_ ->].
    split; intros [Hr Hd]; (split; [done|]).
    + destruct (Date (base r)) as [t|]; [|by cbn in Hd]. cbn in Hd. injection Hd as Hd.
      exists t. split; [done|]. by apply last_day_interval.
    + destruct Hd as (t & -> & Ht). cbn. f_equal. by apply last_day_interval.
  - intros r. rewrite Htrain. destruct (split_rows last_day hf r) as [-> _].
    split; intros [Hr Hd]; (split; [done|]).
    + intros (t & Ht & Hin). rewrite Ht in Hd. cbn in Hd. injection Hd as Hd.
      apply last_day_interval in Hin. congruence.
    + destruct (ext_stock_df_dates e csv r Hr) as [t Ht]. rewrite Ht. cbn. f_equal.
      apply not_true_is_false. intros Hl. apply Hd. exists t. split; [done|].
      by apply last_day_interval.
  - unfold train, h2o_select. cbn [frame_rows]. apply sublist_filter.
  - unfold test, h2o_select. cbn [frame_rows]. apply sublist_filter.
  - rewrite Htrain, Htest. apply split_permutation, Forall_forall.
    apply ext_stock_df_dates.
Qed.

(** ** No look-ahead, no other company *)

Lemma StronglySorted_lookup_lt {A} (R : relation A) (l : list A) : ∀ i j x y,
  StronglySorted R l → (i < j)%nat → l !! i = Some x → l !! j = Some y → R x y.
Proof.
  intros i j x y Hs. revert i j. induction Hs as [|z l _ IH Hz]; intros i j Hij Hi Hj; [done|].
  destruct j as [|j]; [lia|]. cbn in Hj. destruct i as [|i].
  - injection Hi as ->. rewrite Forall_forall in Hz. apply Hz. by eapply list_elem_of_lookup_2.
  - cbn in Hi. apply (IH i j); [lia|done..].
Qed.

Lemma date_le_refl r : date_le r r.
Proof. unfold date_le. destruct (Date (base r)); [lia|done]. Qed.

Lemma ordered_partition_name e key l p i :
  order_by_date e (partition_of key l) !! i = Some p → Name (base p) = key.
Proof.
  intros Hp. apply list_elem_of_lookup_2 in Hp. rewrite (order_perm e) in Hp.
  unfold partition_of in Hp. by apply list_elem_of_filter in Hp as [? _].
Qed.

Lemma lag_pass_row e gs df w :
  w ∈ rows (lag_pass e gs df) →
  complete w = true ∧
  ∃ key i, windowed gs (order_by_date e (partition_of key (rows df))) !! i = Some w.
Proof.
  intros Hw. split; [by eapply na_drop_complete|].
  unfold lag_pass, na_drop, select_lags in Hw. cbn [rows] in Hw.
  apply list_elem_of_filter in Hw as [_ Hw].
  apply list_elem_of_In, in_flat_map in Hw as (key & _ & Hw).
  apply list_elem_of_In, list_elem_of_lookup in Hw as [i Hi]. eauto.
Qed.

(** The row a lag of an output row was read from: a row of the frame the
    pass received, of the same company, not later in time. *)
Lemma lag_pass_source e gs df w g :
  aligned df → NoDup (lag_columns df ++ (alias <$> gs)) →
  w ∈ rows (lag_pass e gs df) → g ∈ gs →
  ∃ q, q ∈ rows df ∧ Name (base q) = Name (base w) ∧ date_le q w ∧
       lag_value (lag_pass e gs df) (alias g) w = Some (col (source g) (base q)).
Proof.
  intros Ha Hnd Hw Hg.
  destruct (lag_pass_row e gs df w Hw) as (Hc & key & i & Hi).
  destruct (pass_columns e gs df key i w g Ha Hnd Hi Hg) as ((p & Hp & _ & Hb & _) & Hv & Hdrop).
  destruct (decide (count g ≤ i)%nat) as [Hk|Hk]; [|exfalso; apply Hdrop; [lia|done]].
  specialize (Hv Hk).
  destruct (lookup_lt_is_Some_2 (order_by_date e (partition_of key (rows df)))
              (i - count g)%nat) as [q Hq].
  { apply lookup_lt_Some in Hp. lia. }
  exists q. rewrite Hq in Hv. repeat split.
  - by eapply ordered_partition_rows.
  - rewrite Hb. rewrite (ordered_partition_name e key _ q _ Hq).
    by rewrite (ordered_partition_name e key _ p _ Hp).
  - assert (date_le q p) as Hqp.
    { destruct (decide (i - count g = i)%nat) as [Heq|Hne].
      - rewrite Heq in Hq. assert (q = p) as -> by congruence. apply date_le_refl.
      - apply (StronglySorted_lookup_lt date_le
                 (order_by_date e (partition_of key (rows df))) (i - count g)%nat i q p);
          [apply Sorted_StronglySorted; [apply _|apply order_sorted] | lia | done..]. }
    unfold date_le in *. by rewrite Hb.
  - done.
Qed.

(** The same for the columns the frame already had. *)
Lemma lag_pass_keeps e gs df w c :
  aligned df → NoDup (lag_columns df ++ (alias <$> gs)) →
  w ∈ rows (lag_pass e gs df) → c ∈ lag_columns df →
  ∃ p, p ∈ rows df ∧ base w = base p ∧
       lag_value (lag_pass e gs df) c w = lag_value df c p.
Proof.
  intros Ha Hnd Hw Hc.
  destruct (lag_pass_row e gs df w Hw) as (_ & key & i & Hi).
  destruct gs as [|g gs].
  - exists w. rewrite windowed_lookup in Hi. apply fmap_Some in Hi as (p & Hp & ->).
    assert (extend [] (order_by_date e (partition_of key (rows df))) i p = p) as ->.
    { unfold extend. cbn. rewrite app_nil_r. by destruct p. }
    split; [by eapply ordered_partition_rows|]. split; [done|].
    unfold lag_value, lag_pass, na_drop, select_lags. cbn [lag_columns]. by rewrite app_nil_r.
  - destruct (pass_columns e (g :: gs) df key i w g Ha Hnd Hi ltac:(left))
      as ((p & _ & Hp & Hb & Hold) & _). exists p. auto.
Qed.

Lemma lag_pass_base e gs df w :
  w ∈ rows (lag_pass e gs df) → ∃ p, p ∈ rows df ∧ base w = base p.
Proof.
  intros Hw.
  assert (base w ∈ base <$> rows df) as Hb.
  { eapply elem_of_submseteq; [|apply (base_lag_pass e gs df)]. by apply list_elem_of_fmap_2. }
  apply list_elem_of_fmap in Hb as (p & ? & ?). eauto.
Qed.

Lemma read_from_lag_pass e csv df gs gs' :
  aligned df → lag_columns df = alias <$> gs →
  NoDup (alias <$> (gs ++ gs')) →
  (∀ p, p ∈ rows df → base p ∈ csv) →
  read_from csv df gs →
  read_from csv (lag_pass e gs' df) (gs ++ gs').
Proof.
  intros Ha Hcols Hnd Hcsv Hread w g Hw Hg.
  assert (NoDup (lag_columns df ++ (alias <$> gs'))) as Hnd'
    by (by rewrite Hcols, <- fmap_app).
  apply elem_of_app in Hg as [Hg|Hg].
  - destruct (lag_pass_keeps e gs' df w (alias g) Ha Hnd' Hw) as (p & Hp & Hb & Hv).
    { rewrite Hcols. by apply list_elem_of_fmap_2. }
    destruct (Hread p g Hp Hg) as (q & Hq & Hn & Hle & Hval).
    exists q. repeat split; [done|by rewrite Hb| |by rewrite Hv].
    unfold date_le in *. by rewrite Hb.
  - destruct (lag_pass_source e gs' df w g Ha Hnd' Hw Hg) as (q & Hq & Hn & Hle & Hv).
    exists (base q). repeat split; [by apply Hcsv|done| |done].
    unfold date_le in *. done.
Qed.

(** X9.  Whatever the input and the engine: each of the seven lag values
    of each row of [ext_stock_df] is the value of the lag's source column
    in a row of the file that belongs to the same company and whose [Date]
    is not later (nulls first) than that of the row holding the lag.  No
    lag is read from the future, from another company, or filled in. *)
Theorem no_look_ahead e csv w g :
  w ∈ rows (ext_stock_df e csv) →
  g ∈ all_lags →
  ∃ q, q ∈ csv ∧ Name q = Name (base w) ∧ date_le (raw q) w ∧
       lag_value (ext_stock_df e csv) (alias g) w = Some (col (source g) q).
Proof.
  assert (∀ e' gs df p, (∀ p0, p0 ∈ rows df → base p0 ∈ csv) →
            p ∈ rows (lag_pass e' gs df) → base p ∈ csv) as Hstep.
  { intros e' gs df p Hcsv Hp. destruct (lag_pass_base e' gs df p Hp) as (p0 & Hp0 & ->). auto. }
  assert (∀ p, p ∈ rows (stock_df csv) → base p ∈ csv) as B0.
  { intros p Hp. unfold stock_df in Hp. cbn [rows] in Hp.
    by apply list_elem_of_fmap in Hp as (r & -> & Hr). }
  assert (read_from csv (stock_df csv) []) as R0.
  { intros w0 g0 _ Hg0. by apply not_elem_of_nil in Hg0. }
  pose proof (aligned_stock_df csv) as A0.
  assert (read_from csv (ext_stock_df_volume e csv) ([] ++ volume_lags)) as R1.
  { apply read_from_lag_pass; [done..| |done|done]. apply (bool_decide_unpack _). vm_compute. exact I. }
  pose proof (aligned_lag_pass e volume_lags _ A0) as A1.
  pose proof (λ p, Hstep e volume_lags _ p B0) as B1.
  assert (read_from csv (ext_stock_df_close e csv) (([] ++ volume_lags) ++ close_lag)) as R2.
  { apply read_from_lag_pass; [done..| |done|done]. apply (bool_decide_unpack _). vm_compute. exact I. }
  pose proof (aligned_lag_pass e close_lag _ A1) as A2.
  pose proof (λ p, Hstep e close_lag _ p B1) as B2.
  assert (read_from csv (ext_stock_df_low e csv)
            ((([] ++ volume_lags) ++ close_lag) ++ low_lag)) as R3.
  { apply read_from_lag_pass; [done..| |done|done]. apply (bool_decide_unpack _). vm_compute. exact I. }
  pose proof (aligned_lag_pass e low_lag _ A2) as A3.
  pose proof (λ p, Hstep e low_lag _ p B2) as B3.
  assert (read_from csv (ext_stock_df_high e csv)
            (((([] ++ volume_lags) ++ close_lag) ++ low_lag) ++ high_lag)) as R4.
  { apply read_from_lag_pass; [done..| |done|done]. apply (bool_decide_unpack _). vm_compute. exact I. }
  pose proof (aligned_lag_pass e high_lag _ A3) as A4.
  pose proof (λ p, Hstep e high_lag _ p B3) as B4.
  assert (read_from csv (ext_stock_df e csv)
            ((((([] ++ volume_lags) ++ close_lag) ++ low_lag) ++ high_lag) ++ open_lag)) as R5.
  { apply read_from_lag_pass; [done..| |done|done]. apply (bool_decide_unpack _). vm_compute. exact I. }
  intros Hw Hg. by apply R5.
Qed.

Lemma no_look_ahead_witness :
  let out := ext_stock_df merge_engine aapl10 in
  let g := {| source := LowCol; count := 1; alias := "Low_lag1" |} in
  ∃ w q, w ∈ rows out ∧ q ∈ aapl10 ∧ date_le (raw q) w ∧
         lag_value out "Low_lag1" w = Some (Low q).
Proof.
  intros out g.
  destruct (rows out) as [|w l] eqn:Hrows; [vm_compute in Hrows; discriminate|].
  assert (w ∈ rows out) as Hw by (rewrite Hrows; left).
  destruct (no_look_ahead merge_engine aapl10 w g Hw) as (q & Hq & _ & Hle & Hv).
  { right; right; right; right; left. }
  exists w, q. rewrite <- Hrows. auto.
Defined.
